(** * A shallow embedding of the Huffman codec of [compression.py]

    The development models the class [HuffmanCompressor] (and the node class
    [HuffmanNode]) of [src/compression.py], together with the parts of the
    Python runtime the codec relies on: string slicing, [int(s, 2)],
    ["{0:08b}".format], [bin], [collections.Counter] and [heapq].

    Conventions.
    - Python [int]s are [Z]; a byte is a [Z] in [0, 256).  Positions in a
      list and lengths are [nat].
    - Python [str]s are [string]s; bit strings are strings over '0' and '1'.
    - Python [dict]s used as maps are [gmap]s; the [Counter], whose iteration
      order drives the heap construction, is an association list kept in
      insertion order.
    - A raised exception is the [Raise] outcome of the [result] monad.
    - The mutable fields [self.codes] and [self.reverse_mapping] are a record
      that every method takes and returns explicitly. *)

From Stdlib Require Import Ascii String.
From Equations Require Import Equations.
From Equations.Prop Require Import Logic.
From stdpp Require Import gmap strings list fin_maps pretty.

#[local] Set Warnings "-clear-no-such-hyp".

(** ** Python runtime *)

Module Py.

(** Exceptions carry the text [str(e)] shows.  [SystemExit] is what
    [exit(0)] raises; it is not an [Exception], so [except Exception]
    does not catch it. *)
Inductive exn : Type :=
| IndexError (msg : string)
| KeyError (msg : string)
| ValueError (msg : string)
| SystemExit.

Definition is_Exception (e : exn) : bool :=
  match e with SystemExit => false | _ => true end.

Definition str_exn (e : exn) : string :=
  match e with
  | IndexError msg | KeyError msg | ValueError msg => msg
  | SystemExit => "0"
  end.

Inductive result (A : Type) : Type :=
| Ok (a : A)
| Raise (e : exn).
Arguments Ok {A} a.
Arguments Raise {A} e.

#[export] Instance result_ret : MRet result := λ A a, Ok a.
#[export] Instance result_bind : MBind result := λ A B f m,
  match m with Ok a => f a | Raise e => Raise e end.

(** [l[i]] and [l[i] = x] on a list, for a non-negative index. *)
Definition getitem {A} (l : list A) (i : nat) : result A :=
  match l !! i with
  | Some x => Ok x
  | None => Raise (IndexError "list index out of range")
  end.

Definition setitem {A} (l : list A) (i : nat) (x : A) : result (list A) :=
  if decide (i < length l) then Ok (<[i:=x]> l)
  else Raise (IndexError "list assignment index out of range").

(** [bytearray.append(v)]: only values of [range(256)] are accepted. *)
Definition bytearray_append (b : list Z) (v : Z) : result (list Z) :=
  if decide (0 ≤ v < 256)%Z then Ok (b ++ [v])
  else Raise (ValueError "byte must be in range(0, 256)").

(** Slice indices: a negative index counts from the end, and every index
    is clipped to [0, len]. *)
Definition adjust_index (len : nat) (i : Z) : nat :=
  if (i <? 0)%Z then Z.to_nat (Z.max 0 (i + Z.of_nat len))
  else Nat.min (Z.to_nat i) len.

(** [s[start:stop]]; [None] is an omitted bound. *)
Definition slice (s : string) (start stop : option Z) : string :=
  let len := String.length s in
  let lo := from_option (adjust_index len) 0 start in
  let hi := from_option (adjust_index len) len stop in
  String.substring lo (hi - lo) s.

(** The binary digits of a positive number, most significant first. *)
Fixpoint pos_bin (p : positive) : string :=
  match p with
  | xH => "1"
  | xO q => pos_bin q +:+ "0"
  | xI q => pos_bin q +:+ "1"
  end.

(** [bin(n)]. *)
Definition bin (n : Z) : string :=
  match n with
  | Z0 => "0b0"
  | Zpos p => "0b" +:+ pos_bin p
  | Zneg p => "-0b" +:+ pos_bin p
  end.

Fixpoint str_repeat (c : ascii) (n : nat) : string :=
  match n with
  | O => EmptyString
  | S n' => String c (str_repeat c n')
  end.

(** [s.rjust(width, fill)]. *)
Definition rjust (width : nat) (fill : ascii) (s : string) : string :=
  str_repeat fill (width - String.length s) +:+ s.

(** ["{0:08b}".format(n)]: binary digits, zero-filled to eight columns;
    the sign, when there is one, comes before the zeros. *)
Definition format_08b (n : Z) : string :=
  match n with
  | Z0 => rjust 8 "0" "0"
  | Zpos p => rjust 8 "0" (pos_bin p)
  | Zneg p => String "-" (rjust 7 "0" (pos_bin p))
  end.

(** [int(s, 2)] on strings of binary digits.  The empty string and any
    string with another character is a [ValueError] here; the signs,
    prefixes, underscores and blanks that Python also reads do not occur
    in the bit strings of the codec. *)
Fixpoint int2_digits (acc : Z) (s : string) : option Z :=
  match s with
  | EmptyString => Some acc
  | String c s' =>
      if decide (c = "0"%char) then int2_digits (2 * acc)%Z s'
      else if decide (c = "1"%char) then int2_digits (2 * acc + 1)%Z s'
      else None
  end.

Definition int2 (s : string) : result Z :=
  match s with
  | EmptyString =>
      Raise (ValueError "invalid literal for int() with base 2: ''")
  | _ =>
      match int2_digits 0 s with
      | Some n => Ok n
      | None =>
          Raise (ValueError
                   ("invalid literal for int() with base 2: '" +:+ s +:+ "'"))
      end
  end.

(** [range(0, stop, step)] for a positive step. *)
Definition range_step (stop step : nat) : list nat :=
  (λ k, step * k) <$> seq 0 ((stop + (step - 1)) / step).

(** [Counter(data)]: one pass, [d[k] = d.get(k, 0) + 1]; a key keeps the
    position of its first insertion. *)
Fixpoint counter_incr (k : Z) (d : list (Z * Z)) : list (Z * Z) :=
  match d with
  | [] => [(k, 1%Z)]
  | (k', v) :: d' =>
      if decide (k = k') then (k', (v + 1)%Z) :: d'
      else (k', v) :: counter_incr k d'
  end.

Definition Counter (data : list Z) : list (Z * Z) :=
  fold_left (λ d k, counter_incr k d) data [].

End Py.
Import Py.

(** ** The tree nodes *)

(** [HuffmanNode(char, freq)] with [left = right = None] is a [Leaf]; the
    merged node of [build_tree], whose [char] is [None] and whose two
    children are set, is an [Internal] node. *)
Inductive HuffmanNode : Type :=
| Leaf (char : Z) (freq : Z)
| Internal (freq : Z) (left right : HuffmanNode).

Definition freq (n : HuffmanNode) : Z :=
  match n with Leaf _ f => f | Internal f _ _ => f end.

(** [HuffmanNode.__lt__] *)
Definition node_lt (self other : HuffmanNode) : bool :=
  bool_decide (freq self < freq other)%Z.

(** ** The binary heap of [heapq]

    The list is the array of the heap; [siftdown] and [siftup] are
    [heapq._siftdown] and [heapq._siftup], with their [while] loops as
    well-founded recursions over the position they move. *)

Module heapq.

(** The loop of [_siftdown]: while [pos > startpos], move the parent down
    when [newitem < parent], else stop.  The result is the array and the
    position where [newitem] belongs. *)
Equations? siftdown_loop (startpos : nat) (newitem : HuffmanNode)
    (heap : list HuffmanNode) (pos : nat)
  : result (list HuffmanNode * nat) by wf pos lt :=
  siftdown_loop startpos newitem heap pos with decide (startpos < pos) := {
    | right _ := Ok (heap, pos)
    | left _ with getitem heap (Nat.div2 (pos - 1)) := {
        | Raise e := Raise e
        | Ok parent with node_lt newitem parent := {
            | false := Ok (heap, pos)
            | true with setitem heap pos parent := {
                | Raise e := Raise e
                | Ok heap' :=
                    siftdown_loop startpos newitem heap' (Nat.div2 (pos - 1))
              }
          }
      }
  }.
Proof.
  destruct pos as [|pos]; [lia|]. simpl. rewrite Nat.sub_0_r.
  apply Nat.lt_succ_r, Nat.div2_decr. lia.
Qed.

Definition siftdown (heap : list HuffmanNode) (startpos pos : nat)
  : result (list HuffmanNode) :=
  newitem ← getitem heap pos;
  '(heap, pos) ← siftdown_loop startpos newitem heap pos;
  setitem heap pos newitem.

Lemma setitem_length {A} (l l' : list A) i x :
  setitem l i x = Ok l' → length l' = length l.
Proof.
  unfold setitem. case_decide; [|done].
  intros [= <-]. apply length_insert.
Qed.

(** The index of the smaller child in the loop of [_siftup]. *)
Definition smaller_child (heap : list HuffmanNode) (childpos : nat)
  : result nat :=
  let endpos := length heap in
  let rightpos := childpos + 1 in
  if decide (rightpos < endpos) then
    l ← getitem heap childpos;
    r ← getitem heap rightpos;
    Ok (if negb (node_lt l r) then rightpos else childpos)
  else Ok childpos.

Lemma smaller_child_bounds heap childpos c :
  smaller_child heap childpos = Ok c →
  childpos < length heap → childpos ≤ c < length heap.
Proof.
  unfold smaller_child. case_decide as Hr.
  - destruct (getitem heap childpos); [|done]. simpl.
    destruct (getitem heap (childpos + 1)); [|done]. simpl.
    intros [= <-] ?. destruct (negb _); lia.
  - intros [= <-] ?. lia.
Qed.

(** The loop of [_siftup]: while the position has a child, move the smaller
    child up. *)
Equations? siftup_loop (heap : list HuffmanNode) (pos : nat)
  : result (list HuffmanNode * nat) by wf (length heap - pos) lt :=
  siftup_loop heap pos with decide (2 * pos + 1 < length heap) := {
    | right _ := Ok (heap, pos)
    | left _ with inspect (smaller_child heap (2 * pos + 1)) := {
        | exist _ (Raise e) _ := Raise e
        | exist _ (Ok childpos) Hc with getitem heap childpos := {
            | Raise e := Raise e
            | Ok child with inspect (setitem heap pos child) := {
                | exist _ (Raise e) _ := Raise e
                | exist _ (Ok heap') Hs := siftup_loop heap' childpos
              }
          }
      }
  }.
Proof.
  apply setitem_length in Hs. apply smaller_child_bounds in Hc; lia.
Qed.

Definition siftup (heap : list HuffmanNode) (pos : nat)
  : result (list HuffmanNode) :=
  let startpos := pos in
  newitem ← getitem heap pos;
  '(heap, pos) ← siftup_loop heap pos;
  heap ← setitem heap pos newitem;
  siftdown heap startpos pos.

(** [heapq.heappush(heap, item)] *)
Definition heappush (heap : list HuffmanNode) (item : HuffmanNode)
  : result (list HuffmanNode) :=
  let heap := heap ++ [item] in
  siftdown heap 0 (length heap - 1).

(** [list.pop()]: the last element and the list without it. *)
Definition list_pop {A} (l : list A) : result (A * list A) :=
  match last l with
  | Some x => Ok (x, removelast l)
  | None => Raise (IndexError "pop from empty list")
  end.

(** [heapq.heappop(heap)] *)
Definition heappop (heap : list HuffmanNode)
  : result (HuffmanNode * list HuffmanNode) :=
  '(lastelt, heap) ← list_pop heap;
  if decide (heap ≠ []) then
    returnitem ← getitem heap 0;
    heap ← setitem heap 0 lastelt;
    heap ← siftup heap 0;
    Ok (returnitem, heap)
  else Ok (lastelt, heap).

(** *** The heap operations never raise and only permute the array *)

Lemma getitem_lookup {A} (l : list A) i x :
  l !! i = Some x → getitem l i = Ok x.
Proof. unfold getitem. by intros ->. Qed.

Lemma getitem_lt {A} (l : list A) i :
  i < length l → ∃ x, l !! i = Some x ∧ getitem l i = Ok x.
Proof.
  intros [x Hx]%lookup_lt_is_Some_2. exists x.
  split; [done|]. by apply getitem_lookup.
Qed.

Lemma setitem_lt {A} (l : list A) i x :
  i < length l → setitem l i x = Ok (<[i:=x]> l).
Proof. unfold setitem. intros. by rewrite decide_True. Qed.

(** Exchanging the contents of two cells permutes the array. *)
Lemma insert_head_perm {A} (l : list A) j x y :
  l !! j = Some y → y :: <[j:=x]> l ≡ₚ x :: l.
Proof.
  revert j. induction l as [|a l IH]; intros [|j] Hj; simplify_eq/=.
  - apply Permutation_swap.
  - rewrite (Permutation_swap a y), (IH j Hj). apply Permutation_swap.
Qed.

Lemma insert_swap_perm {A} (l : list A) i j x y :
  l !! i = Some x → l !! j = Some y → <[i:=y]> (<[j:=x]> l) ≡ₚ l.
Proof.
  revert i j. induction l as [|a l IH]; intros [|i] [|j] Hi Hj; simplify_eq/=.
  - done.
  - by apply insert_head_perm.
  - by apply insert_head_perm.
  - by rewrite IH.
Qed.

(** One step of either sift loop: the hole moves from [pos] to [pos'] and
    the element of [pos'] fills the old hole. *)
Lemma move_hole_perm (heap : list HuffmanNode) pos pos' item newitem :
  pos ≠ pos' → pos < length heap → heap !! pos' = Some item →
  <[pos':=newitem]> (<[pos:=item]> heap) ≡ₚ <[pos:=newitem]> heap.
Proof.
  intros Hne Hlt Hitem.
  rewrite <- (list_insert_insert_eq heap pos item newitem).
  apply insert_swap_perm.
  - by rewrite list_lookup_insert_ne.
  - by rewrite list_lookup_insert_eq.
Qed.

Lemma siftdown_loop_spec startpos newitem heap pos :
  pos < length heap →
  ∃ heap' pos',
    siftdown_loop startpos newitem heap pos = Ok (heap', pos') ∧
    pos' < length heap' ∧
    <[pos':=newitem]> heap' ≡ₚ <[pos:=newitem]> heap.
Proof.
  funelim (siftdown_loop startpos newitem heap pos); intros Hlt;
    try (eexists _, _; split; [done|]; split; done);
    (assert (Nat.div2 (pos - 1) < pos) as Hdec;
     [destruct pos as [|pos]; [lia|]; simpl; rewrite Nat.sub_0_r;
      apply Nat.lt_succ_r, Nat.div2_decr; lia|]).
  - exfalso. destruct (getitem_lt heap (Nat.div2 (pos - 1))) as (? & _ & ?);
      [lia|congruence].
  - rewrite setitem_lt in Heq by done. simplify_eq.
    unfold getitem in Heq1.
    destruct (heap !! Nat.div2 (pos - 1)) as [p|] eqn:Hp; simplify_eq.
    destruct H as (heap' & pos' & Heq' & Hlen & Hperm).
    { rewrite length_insert. lia. }
    exists heap', pos'. split; [done|]. split; [done|].
    rewrite Hperm. apply move_hole_perm; [lia|done|done].
  - rewrite setitem_lt in Heq by done. done.
Qed.

Lemma siftdown_spec heap startpos pos :
  pos < length heap →
  ∃ heap', siftdown heap startpos pos = Ok heap' ∧ heap' ≡ₚ heap.
Proof.
  intros Hlt. unfold siftdown.
  destruct (getitem_lt heap pos Hlt) as (newitem & Hnew & ->). simpl.
  destruct (siftdown_loop_spec startpos newitem heap pos Hlt)
    as (heap' & pos' & -> & Hlen & Hperm). simpl.
  rewrite setitem_lt by done. eexists; split; [done|].
  by rewrite Hperm, list_insert_id.
Qed.

Lemma smaller_child_spec heap childpos :
  childpos < length heap →
  ∃ c, smaller_child heap childpos = Ok c ∧ childpos ≤ c < length heap.
Proof.
  intros Hlt. unfold smaller_child. case_decide as Hr.
  - destruct (getitem_lt heap childpos Hlt) as (l & _ & ->).
    destruct (getitem_lt heap _ Hr) as (r & _ & ->). simpl.
    eexists; split; [done|]. destruct (negb _); lia.
  - eexists; split; [done|]. lia.
Qed.

Lemma siftup_loop_spec newitem heap pos :
  pos < length heap →
  ∃ heap' pos',
    siftup_loop heap pos = Ok (heap', pos') ∧
    pos' < length heap' ∧
    <[pos':=newitem]> heap' ≡ₚ <[pos:=newitem]> heap.
Proof.
  funelim (siftup_loop heap pos); intros Hlt;
    try (eexists _, _; split; [done|]; split; done);
    repeat match goal with
      | H : sigmaI _ _ _ = _ |- _ => clear H
      end.
  - exfalso. destruct (smaller_child_spec heap (2 * pos + 1)) as (? & ? & _);
      [lia|congruence].
  - exfalso. pose proof (smaller_child_bounds _ _ _ Hc ltac:(lia)) as Hb.
    destruct (getitem_lt heap childpos) as (? & _ & ?); [lia|congruence].
  - pose proof (smaller_child_bounds _ _ _ Hc ltac:(lia)) as Hb.
    rewrite setitem_lt in Hs by done. simplify_eq.
    unfold getitem in Heq.
    destruct (heap !! childpos) as [c|] eqn:Hchild; simplify_eq.
    destruct (H newitem) as (heap' & pos' & Heq' & Hlen & Hperm).
    { rewrite length_insert. lia. }
    exists heap', pos'. split; [done|]. split; [done|].
    rewrite Hperm. apply move_hole_perm; [lia|done|done].
  - exfalso. rewrite setitem_lt in e1 by done. done.
Qed.

Lemma siftup_spec heap pos :
  pos < length heap →
  ∃ heap', siftup heap pos = Ok heap' ∧ heap' ≡ₚ heap.
Proof.
  intros Hlt. unfold siftup.
  destruct (getitem_lt heap pos Hlt) as (newitem & Hnew & ->). simpl.
  destruct (siftup_loop_spec newitem heap pos Hlt)
    as (heap' & pos' & -> & Hlen & Hperm). simpl.
  rewrite setitem_lt by done. simpl.
  destruct (siftdown_spec (<[pos':=newitem]> heap') pos pos')
    as (heap'' & -> & Hperm'); [by rewrite length_insert|].
  eexists; split; [done|].
  by rewrite Hperm', Hperm, list_insert_id.
Qed.

Lemma heappush_spec heap item :
  ∃ heap', heappush heap item = Ok heap' ∧ heap' ≡ₚ item :: heap.
Proof.
  unfold heappush.
  destruct (siftdown_spec (heap ++ [item]) 0 (length (heap ++ [item]) - 1))
    as (heap' & -> & Hperm); [rewrite length_app; simpl; lia|].
  eexists; split; [done|].
  by rewrite Hperm, Permutation_app_comm.
Qed.

Lemma list_pop_spec {A} (l : list A) :
  l ≠ [] → ∃ x l', list_pop l = Ok (x, l') ∧ l = l' ++ [x].
Proof.
  intros Hne. destruct l as [|a l] using rev_ind; [done|].
  exists a, l. unfold list_pop. rewrite last_snoc, removelast_last. done.
Qed.

Lemma heappop_spec heap :
  heap ≠ [] →
  ∃ item heap', heappop heap = Ok (item, heap') ∧ item :: heap' ≡ₚ heap.
Proof.
  intros Hne. unfold heappop.
  destruct (list_pop_spec heap Hne) as (lastelt & h & -> & ->). simpl.
  case_decide as Hh.
  - destruct h as [|returnitem h]; [done|]. simpl.
    destruct (siftup_spec (lastelt :: h) 0) as (heap' & -> & Hperm);
      [simpl; lia|]. simpl.
    eexists _, _; split; [done|].
    rewrite Hperm. by rewrite (Permutation_app_comm h [lastelt]).
  - destruct h as [|a h]; [|done].
    eexists _, _; split; done.
Qed.

End heapq.

(** ** The compressor *)

(** The instance fields set by [HuffmanCompressor.__init__]. *)
Record HuffmanCompressor : Type := mkCompressor {
  codes : gmap Z string;
  reverse_mapping : gmap string Z
}.

(** [HuffmanCompressor()] *)
Definition new_compressor : HuffmanCompressor :=
  {| codes := ∅; reverse_mapping := ∅ |}.

(** What [pickle.dump] stores: the dictionary with the keys
    ['reverse_mapping'] and ['compressed_data']. *)
Record Artifact : Type := mkArtifact {
  art_reverse_mapping : gmap string Z;
  art_compressed_data : list Z
}.

Definition build_frequency_dict (data : list Z) : list (Z * Z) :=
  Counter data.

Fixpoint build_heap_loop (items : list (Z * Z)) (heap : list HuffmanNode)
  : result (list HuffmanNode) :=
  match items with
  | [] => Ok heap
  | (char, freq) :: items' =>
      let node := Leaf char freq in
      heap ← heapq.heappush heap node;
      build_heap_loop items' heap
  end.

Definition build_heap (frequency : list (Z * Z)) : result (list HuffmanNode) :=
  build_heap_loop frequency [].

(** The body of the [while] loop of [build_tree]. *)
Definition merge_step (heap : list HuffmanNode) : result (list HuffmanNode) :=
  '(node1, heap) ← heapq.heappop heap;
  '(node2, heap) ← heapq.heappop heap;
  let merged := Internal (freq node1 + freq node2) node1 node2 in
  heapq.heappush heap merged.

Lemma merge_step_spec heap :
  1 < length heap →
  ∃ node1 node2 rest heap',
    merge_step heap = Ok heap' ∧
    heap ≡ₚ node1 :: node2 :: rest ∧
    heap' ≡ₚ Internal (freq node1 + freq node2) node1 node2 :: rest.
Proof.
  intros Hlen. unfold merge_step.
  destruct (heapq.heappop_spec heap) as (node1 & h1 & -> & Hp1).
  { intros ->. simpl in Hlen. lia. }
  simpl. destruct (heapq.heappop_spec h1) as (node2 & h2 & -> & Hp2).
  { intros ->. apply Permutation_length in Hp1. simpl in Hp1. lia. }
  simpl. destruct (heapq.heappush_spec h2
    (Internal (freq node1 + freq node2) node1 node2)) as (heap' & -> & Hp3).
  exists node1, node2, h2, heap'. split; [done|]. split; [|done].
  by rewrite <- Hp1, <- Hp2.
Qed.

Equations? build_tree_loop (heap : list HuffmanNode)
  : result (list HuffmanNode) by wf (length heap) lt :=
  build_tree_loop heap with decide (1 < length heap) := {
    | right _ := Ok heap
    | left _ with inspect (merge_step heap) := {
        | exist _ (Raise e) _ := Raise e
        | exist _ (Ok heap') Hm := build_tree_loop heap'
      }
  }.
Proof.
  destruct (merge_step_spec heap) as (n1 & n2 & rest & h & Hh & Hp & Hp');
    [done|].
  rewrite Hh in Hm. simplify_eq.
  apply Permutation_length in Hp, Hp'. simpl in *. lia.
Qed.

Definition build_tree (heap : list HuffmanNode) : result (option HuffmanNode) :=
  heap ← build_tree_loop heap;
  Ok (head heap).

(** [build_codes] on a node that is not [None].  The [print()] of the
    source writes an empty line and is left out. *)
Fixpoint build_codes_node (node : HuffmanNode) (current_code : string)
    (self : HuffmanCompressor) : HuffmanCompressor :=
  match node with
  | Leaf char _ =>
      {| codes := <[char:=current_code]> (codes self);
         reverse_mapping := <[current_code:=char]> (reverse_mapping self) |}
  | Internal _ node_left node_right =>
      let self := build_codes_node node_left (current_code +:+ "0") self in
      build_codes_node node_right (current_code +:+ "1") self
  end.

Definition build_codes (node : option HuffmanNode) (current_code : string)
    (self : HuffmanCompressor) : HuffmanCompressor :=
  match node with
  | None => self
  | Some node => build_codes_node node current_code self
  end.

Fixpoint get_encoded_text_loop (self : HuffmanCompressor) (text : list Z)
    (encoded_text : string) : result string :=
  match text with
  | [] => Ok encoded_text
  | char :: text' =>
      match codes self !! char with
      | Some code =>
          get_encoded_text_loop self text' (encoded_text +:+ code)
      | None => Raise (KeyError (pretty.pretty char))
      end
  end.

Definition get_encoded_text (self : HuffmanCompressor) (text : list Z)
  : result string :=
  get_encoded_text_loop self text EmptyString.

Definition extra_padding_of (encoded_text : string) : Z :=
  (8 - Z.of_nat (String.length encoded_text) `mod` 8)%Z.

Definition pad_encoded_text (encoded_text : string) : string :=
  let extra_padding := extra_padding_of encoded_text in
  let encoded_text :=
    Nat.iter (Z.to_nat extra_padding) (λ t, t +:+ "0") encoded_text in
  let padded_info := format_08b extra_padding in
  let encoded_text := padded_info +:+ encoded_text in
  encoded_text.

Fixpoint get_byte_array_loop (padded_encoded_text : string) (idx : list nat)
    (b : list Z) : result (list Z) :=
  match idx with
  | [] => Ok b
  | i :: idx' =>
      let byte :=
        slice padded_encoded_text (Some (Z.of_nat i)) (Some (Z.of_nat i + 8)%Z)
      in
      v ← int2 byte;
      b ← bytearray_append b v;
      get_byte_array_loop padded_encoded_text idx' b
  end.

(** The [exit(0)] of an unpadded text is the [SystemExit] outcome. *)
Definition get_byte_array (padded_encoded_text : string) : result (list Z) :=
  if decide (String.length padded_encoded_text `mod` 8 ≠ 0) then
    Raise SystemExit
  else
    get_byte_array_loop padded_encoded_text
      (range_step (String.length padded_encoded_text) 8) [].

(** The outcome of a call of [compress] or [decompress]: the instance after
    the call, what was written to [output_path] (nothing when [None]) and
    the returned pair, or the exception that left the method. *)
Record outcome (F : Type) : Type := mkOutcome {
  out_self : HuffmanCompressor;
  out_file : option F;
  out_return : result (bool * string)
}.
Arguments mkOutcome {F} _ _ _.
Arguments out_self {F} _.
Arguments out_file {F} _.
Arguments out_return {F} _.

(** [except Exception as e: return False, prefix + str(e)] *)
Definition handler {F} (prefix : string) (self : HuffmanCompressor) (e : exn)
  : outcome F :=
  mkOutcome self None
    (if is_Exception e then Ok (false, prefix +:+ str_exn e) else Raise e).

(** [compress(input_path, output_path)], where [text] is the content of the
    file at [input_path].  Opening, reading and writing the files succeed. *)
Definition compress (self : HuffmanCompressor) (text : list Z)
  : outcome Artifact :=
  let fail := handler "Compression failed: " in
  if decide (length text = 0) then
    mkOutcome self None (Ok (false, "File is empty"))
  else
    let frequency := build_frequency_dict text in
    match build_heap frequency with
    | Raise e => fail self e
    | Ok heap =>
    match build_tree heap with
    | Raise e => fail self e
    | Ok root =>
    let self := build_codes root EmptyString self in
    match get_encoded_text self text with
    | Raise e => fail self e
    | Ok encoded_text =>
    let padded_encoded_text := pad_encoded_text encoded_text in
    match get_byte_array padded_encoded_text with
    | Raise e => fail self e
    | Ok b =>
    let compressed_data :=
      {| art_reverse_mapping := reverse_mapping self;
         art_compressed_data := b |} in
    mkOutcome self (Some compressed_data) (Ok (true, "Compression successful"))
    end end end end.

Definition remove_padding (padded_encoded_text : string) : result string :=
  let padded_info := slice padded_encoded_text None (Some 8%Z) in
  extra_padding ← int2 padded_info;
  let padded_encoded_text := slice padded_encoded_text (Some 8%Z) None in
  let encoded_text :=
    slice padded_encoded_text None (Some (- extra_padding)%Z) in
  Ok encoded_text.

(** The loop of [decode_text]; the state is [current_code] and
    [decoded_bytes]. *)
Fixpoint decode_text_loop (self : HuffmanCompressor) (encoded_text : string)
    (current_code : string) (decoded_bytes : list Z)
  : result (string * list Z) :=
  match encoded_text with
  | EmptyString => Ok (current_code, decoded_bytes)
  | String bit encoded_text' =>
      let current_code := current_code +:+ String bit EmptyString in
      match reverse_mapping self !! current_code with
      | Some char =>
          decoded_bytes ← bytearray_append decoded_bytes char;
          decode_text_loop self encoded_text' EmptyString decoded_bytes
      | None =>
          decode_text_loop self encoded_text' current_code decoded_bytes
      end
  end.

Definition decode_text (self : HuffmanCompressor) (encoded_text : string)
  : result (list Z) :=
  '(_, decoded_bytes) ← decode_text_loop self encoded_text EmptyString [];
  Ok decoded_bytes.

(** The bits of the payload: [bin(byte)[2:].rjust(8, '0')] for every byte. *)
Definition byte_bits (byte : Z) : string :=
  rjust 8 "0" (slice (bin byte) (Some 2%Z) None).

Definition payload_bits (compressed_data : list Z) : string :=
  fold_left (λ bit_string byte, bit_string +:+ byte_bits byte)
    compressed_data EmptyString.

(** [decompress(input_path, output_path)], where [compressed_data] is what
    [pickle.load] reads from the file at [input_path]. *)
Definition decompress (self : HuffmanCompressor) (compressed_data : Artifact)
  : outcome (list Z) :=
  let fail := handler "Decompression failed: " in
  let self :=
    {| codes := codes self;
       reverse_mapping := art_reverse_mapping compressed_data |} in
  let bit_string := payload_bits (art_compressed_data compressed_data) in
  match remove_padding bit_string with
  | Raise e => fail self e
  | Ok encoded_text =>
  match decode_text self encoded_text with
  | Raise e => fail self e
  | Ok decompressed_bytes =>
  mkOutcome self (Some decompressed_bytes)
    (Ok (true, "Decompression successful"))
  end end.

(** ** The application: the proposed file names *)

(** The three [tk.StringVar]s of [CompressionApp], with the compressor the
    application keeps. *)
Record CompressionApp : Type := mkApp {
  compressor : HuffmanCompressor;
  file_path : string;
  compression_var : string;
  output_path : string
}.

(** [s.endswith(suffix)] *)
Definition endswith (s suffix : string) : bool :=
  (String.length suffix <=? String.length s) &&
  String.eqb
    (substring (String.length s - String.length suffix)
       (String.length suffix) s)
    suffix.

(** [auto_generate_output]: the proposed output file, from the input file
    and the selected operation. *)
Definition auto_generate_output (self : CompressionApp) : CompressionApp :=
  let input_file := file_path self in
  if decide (input_file = EmptyString) then self
  else
    let output_file :=
      if decide (compression_var self = "compress") then
        input_file +:+ ".huff"
      else if endswith input_file ".huff" then
        slice input_file None (Some (- 5)%Z)
      else
        input_file +:+ ".decompressed" in
    {| compressor := compressor self; file_path := file_path self;
       compression_var := compression_var self;
       output_path := output_file |}.

(** [browse_file], where [filename] is what the file dialog returns (the
    empty string when it is cancelled). *)
Definition browse_file (self : CompressionApp) (filename : string)
  : CompressionApp :=
  if decide (filename ≠ EmptyString) then
    auto_generate_output
      {| compressor := compressor self; file_path := filename;
         compression_var := compression_var self;
         output_path := output_path self |}
  else self.

(** The selection of a radio button of the operation. *)
Definition select_operation (self : CompressionApp) (value : string)
  : CompressionApp :=
  {| compressor := compressor self; file_path := file_path self;
     compression_var := value; output_path := output_path self |}.

(** ** The vocabulary of the statements *)

(** The symbols at the leaves of a tree, left to right. *)
Fixpoint leaves (node : HuffmanNode) : list Z :=
  match node with
  | Leaf char _ => [char]
  | Internal _ node_left node_right => leaves node_left ++ leaves node_right
  end.

(** The symbol and the path of every leaf: '0' for a step to the left
    child, '1' for a step to the right child. *)
Fixpoint paths (node : HuffmanNode) : list (Z * string) :=
  match node with
  | Leaf char _ => [(char, EmptyString)]
  | Internal _ node_left node_right =>
      (prod_map id (String "0") <$> paths node_left)
      ++ (prod_map id (String "1") <$> paths node_right)
  end.

(** [s] is a prefix of [t]. *)
Definition str_prefix (s t : string) : Prop := ∃ u, t = s +:+ u.

(** A string of the characters '0' and '1'. *)
Fixpoint is_bits (s : string) : Prop :=
  match s with
  | EmptyString => True
  | String c s' => (c = "0"%char ∨ c = "1"%char) ∧ is_bits s'
  end.

(** Every value of a reverse mapping is a byte. *)
Definition byte_values (m : gmap string Z) : Prop :=
  ∀ code char, m !! code = Some char → (0 ≤ char < 256)%Z.

(** The scenario of the specification, [b"aaabbc"], and the reverse
    mapping of its artifact on a new compressor. *)
Definition aaabbc : list Z := [97; 97; 97; 98; 98; 99]%Z.

Definition aaabbc_mapping : gmap string Z :=
  <["0":=97%Z]> (<["10":=99%Z]> (<["11":=98%Z]> ∅)).

(** The parent of position [k] in the array of a heap. *)
Definition parent (k : nat) : nat := Nat.div2 (k - 1).

(** No node is less frequent than its parent. *)
Definition heap_ordered (heap : list HuffmanNode) : Prop :=
  ∀ k x p, 0 < k → heap !! k = Some x → heap !! parent k = Some p →
           (freq p ≤ freq x)%Z.

(** The order of a heap whose position [i] is a hole: the cells other than
    [i] are ordered among themselves, and the children of [i] are not less
    frequent than the parent of [i]. *)
Definition hole_ordered (heap : list HuffmanNode) (i : nat) : Prop :=
  (∀ k x p, 0 < k → k ≠ i → parent k ≠ i →
            heap !! k = Some x → heap !! parent k = Some p →
            (freq p ≤ freq x)%Z) ∧
  (∀ k x g, 0 < k → parent k = i → 0 < i →
            heap !! k = Some x → heap !! parent i = Some g →
            (freq g ≤ freq x)%Z).

(** [item] is not more frequent than the children of position [i]. *)
Definition below_children (heap : list HuffmanNode) (i : nat)
    (item : HuffmanNode) : Prop :=
  ∀ k x, 0 < k → parent k = i → heap !! k = Some x → (freq item ≤ freq x)%Z.

(** The symbol and the count at every leaf, left to right. *)
Fixpoint leaf_entries (node : HuffmanNode) : list (Z * Z) :=
  match node with
  | Leaf char f => [(char, f)]
  | Internal _ node_left node_right =>
      leaf_entries node_left ++ leaf_entries node_right
  end.

(** The [freq] of every merged node is the sum of the [freq] of its
    children. *)
Fixpoint weights_add_up (node : HuffmanNode) : Prop :=
  match node with
  | Leaf _ _ => True
  | Internal f node_left node_right =>
      f = (freq node_left + freq node_right)%Z ∧
      weights_add_up node_left ∧ weights_add_up node_right
  end.

(** The left child of every merged node is not more frequent than the right
    child. *)
Fixpoint left_not_heavier (node : HuffmanNode) : Prop :=
  match node with
  | Leaf _ _ => True
  | Internal _ node_left node_right =>
      (freq node_left ≤ freq node_right)%Z ∧
      left_not_heavier node_left ∧ left_not_heavier node_right
  end.

Definition sum_Z (l : list Z) : Z := foldr Z.add 0%Z l.

(** [d[c]] for a [Counter]: the count, or 0 for a missing key. *)
Fixpoint counter_get (d : list (Z * Z)) (c : Z) : Z :=
  match d with
  | [] => 0%Z
  | (k, v) :: d' => if decide (c = k) then v else counter_get d' c
  end.

(** The number of occurrences of [c] in [data]. *)
Definition occurrences (c : Z) (data : list Z) : Z :=
  Z.of_nat (length (filter (λ x, x = c) data)).

(** A key that the compressor still holds is harmless when it is not a
    proper prefix of a code of the new input. *)
Definition no_stale_prefix (self : HuffmanCompressor) (text : list Z) : Prop :=
  ∀ key c u,
    is_Some (reverse_mapping self !! key) →
    codes (out_self (compress new_compressor text)) !! c
      = Some (key +:+ u) →
    key ≠ EmptyString → u = EmptyString.

(** ** Strings and slices *)

Section strings.
Implicit Types s t u : string.

Lemma str_app_cons c s t : String c s +:+ t = String c (s +:+ t).
Proof. reflexivity. Qed.

Lemma str_app_nil_l s : EmptyString +:+ s = s.
Proof. reflexivity. Qed.

Lemma str_length_app s t :
  String.length (s +:+ t) = String.length s + String.length t.
Proof.
  induction s as [|c s IH]; [done|].
  rewrite str_app_cons. simpl. by rewrite IH.
Qed.

Lemma str_app_assoc s t u : (s +:+ t) +:+ u = s +:+ (t +:+ u).
Proof.
  induction s as [|c s IH]; [done|].
  by rewrite !str_app_cons, IH.
Qed.

Lemma str_app_nil_r s : s +:+ EmptyString = s.
Proof.
  induction s as [|c s IH]; [done|]. by rewrite str_app_cons, IH.
Qed.

Lemma str_app_inv_head s t u : s +:+ t = s +:+ u → t = u.
Proof.
  induction s as [|c s IH]; [done|].
  rewrite !str_app_cons. intros [=]. auto.
Qed.

Lemma str_repeat_length c n : String.length (str_repeat c n) = n.
Proof. induction n as [|n IH]; simpl; [done|]. by rewrite IH. Qed.

Lemma substring_0_0 s : substring 0 0 s = EmptyString.
Proof. by destruct s. Qed.

Lemma substring_n_0 s n : substring n 0 s = EmptyString.
Proof.
  revert n. induction s as [|c s IH]; intros [|n]; simpl; auto.
Qed.

Lemma substring_take_app s t :
  substring 0 (String.length s) (s +:+ t) = s.
Proof.
  induction s as [|c s IH]; [apply substring_0_0|].
  rewrite str_app_cons. simpl. by rewrite IH.
Qed.

Lemma substring_all s : substring 0 (String.length s) s = s.
Proof.
  rewrite <- (str_app_nil_r s) at 2. apply substring_take_app.
Qed.

Lemma substring_drop_app s t n m :
  substring (String.length s + n) m (s +:+ t) = substring n m t.
Proof.
  induction s as [|c s IH]; [done|]. rewrite str_app_cons. simpl. done.
Qed.

Lemma substring_take_app_le s t n :
  n ≤ String.length s → substring 0 n (s +:+ t) = substring 0 n s.
Proof.
  revert n. induction s as [|c s IH]; intros [|n] Hn; simpl in Hn;
    try lia.
  - by rewrite !substring_0_0.
  - by rewrite !substring_0_0.
  - rewrite str_app_cons. simpl. rewrite IH by lia. done.
Qed.

(** [s[:n]] for [n] within the string, [s[n:]] and [s[:-n]]. *)
Lemma slice_take_app s t :
  slice (s +:+ t) None (Some (Z.of_nat (String.length s))) = s.
Proof.
  unfold slice, adjust_index. simpl.
  rewrite str_length_app.
  destruct (Z.ltb_spec (Z.of_nat (String.length s)) 0); [lia|].
  rewrite Nat2Z.id, Nat.min_l, Nat.sub_0_r by lia.
  apply substring_take_app.
Qed.

Lemma slice_drop_app s t :
  slice (s +:+ t) (Some (Z.of_nat (String.length s))) None = t.
Proof.
  unfold slice, adjust_index. simpl.
  rewrite str_length_app.
  destruct (Z.ltb_spec (Z.of_nat (String.length s)) 0); [lia|].
  rewrite Nat2Z.id, Nat.min_l by lia.
  replace (String.length s + String.length t - String.length s)
    with (String.length t) by lia.
  rewrite <- (Nat.add_0_r (String.length s)) at 1.
  rewrite substring_drop_app. apply substring_all.
Qed.

Lemma slice_drop_last s (p : Z) :
  (0 < p)%Z →
  slice s None (Some (- p)%Z)
  = substring 0 (String.length s - Z.to_nat p) s.
Proof.
  intros Hp. unfold slice, adjust_index. simpl.
  destruct (Z.ltb_spec (- p) 0); [|lia].
  rewrite Nat.sub_0_r. f_equal. lia.
Qed.

Lemma slice_drop_zero s : slice s None (Some (- 0)%Z) = EmptyString.
Proof.
  unfold slice, adjust_index. simpl. apply substring_0_0.
Qed.

End strings.

(** ** Padding and its removal *)

Lemma str_repeat_snoc c n :
  str_repeat c n +:+ String c EmptyString = str_repeat c (S n).
Proof.
  induction n as [|n IH]; [done|].
  change (str_repeat c (S n)) with (String c (str_repeat c n)).
  by rewrite str_app_cons, IH.
Qed.

Lemma iter_append_zeros n s :
  Nat.iter n (λ t, t +:+ "0") s = s +:+ str_repeat "0" n.
Proof.
  induction n as [|n IH].
  - simpl. by rewrite str_app_nil_r.
  - rewrite Nat.iter_succ, IH, str_app_assoc. f_equal.
    apply str_repeat_snoc.
Qed.

Lemma extra_padding_of_bounds encoded_text :
  (1 ≤ extra_padding_of encoded_text ≤ 8)%Z.
Proof.
  unfold extra_padding_of.
  pose proof (Z.mod_pos_bound (Z.of_nat (String.length encoded_text)) 8).
  lia.
Qed.

Lemma format_08b_header (p : Z) :
  (1 ≤ p ≤ 8)%Z →
  String.length (format_08b p) = 8 ∧ int2 (format_08b p) = Ok p.
Proof.
  intros Hp.
  assert (p = 1 ∨ p = 2 ∨ p = 3 ∨ p = 4 ∨ p = 5 ∨ p = 6 ∨ p = 7 ∨ p = 8)%Z
    as Hcases by lia.
  repeat (destruct Hcases as [->|Hcases]; [by vm_compute|]).
  subst. by vm_compute.
Qed.

Lemma pad_encoded_text_eq encoded_text :
  pad_encoded_text encoded_text
  = format_08b (extra_padding_of encoded_text)
    +:+ (encoded_text
         +:+ str_repeat "0" (Z.to_nat (extra_padding_of encoded_text))).
Proof. unfold pad_encoded_text. by rewrite iter_append_zeros. Qed.

(** What [remove_padding] does for a header that reads [p]. *)
Lemma remove_padding_header hdr rest (p : Z) :
  String.length hdr = 8 → int2 hdr = Ok p →
  remove_padding (hdr +:+ rest) = Ok (slice rest None (Some (- p)%Z)).
Proof.
  intros Hlen Hp. unfold remove_padding.
  change 8%Z with (Z.of_nat 8). rewrite <- Hlen.
  rewrite slice_take_app, slice_drop_app, Hp. done.
Qed.

Lemma remove_padding_pad (encoded_text : string) :
  remove_padding (pad_encoded_text encoded_text) = Ok encoded_text.
Proof.
  rewrite pad_encoded_text_eq.
  pose proof (extra_padding_of_bounds encoded_text) as Hp.
  destruct (format_08b_header _ Hp) as [Hlen Hint].
  rewrite (remove_padding_header _ _ _ Hlen Hint). f_equal.
  rewrite slice_drop_last by lia.
  rewrite str_length_app, str_repeat_length.
  replace (String.length encoded_text + Z.to_nat (extra_padding_of encoded_text)
           - Z.to_nat (extra_padding_of encoded_text))
    with (String.length encoded_text) by lia.
  apply substring_take_app.
Qed.

(** ** The frequency table *)

Lemma counter_incr_keys k (d : list (Z * Z)) :
  (counter_incr k d).*1 = if decide (k ∈ d.*1) then d.*1 else d.*1 ++ [k].
Proof.
  induction d as [|[k' v] d IH]; [done|].
  cbn [counter_incr].
  destruct (decide (k = k')) as [->|Hne]; rewrite !fmap_cons; cbn [fst].
  - rewrite decide_True by set_solver. done.
  - rewrite IH. destruct (decide (k ∈ d.*1)).
    + rewrite decide_True by set_solver. done.
    + rewrite decide_False by set_solver. done.
Qed.

Lemma counter_fold_keys (data : list Z) (d : list (Z * Z)) :
  NoDup d.*1 →
  NoDup (fold_left (λ d k, counter_incr k d) data d).*1 ∧
  ∀ c, c ∈ (fold_left (λ d k, counter_incr k d) data d).*1
       ↔ c ∈ data ∨ c ∈ d.*1.
Proof.
  revert d. induction data as [|k data IH]; intros d Hd; simpl.
  - split; [done|]. set_solver.
  - destruct (IH (counter_incr k d)) as [Hnd Hin].
    { rewrite counter_incr_keys. case_decide; [done|].
      apply NoDup_app. split_and!; [done|set_solver|apply NoDup_singleton]. }
    split; [done|]. intros c. rewrite Hin, counter_incr_keys.
    case_decide; set_solver.
Qed.

Lemma build_frequency_dict_keys (data : list Z) :
  NoDup (build_frequency_dict data).*1 ∧
  ∀ c, c ∈ (build_frequency_dict data).*1 ↔ c ∈ data.
Proof.
  destruct (counter_fold_keys data []) as [Hnd Hin]; [constructor|].
  split; [done|]. intros c. unfold build_frequency_dict, Counter.
  rewrite Hin. set_solver.
Qed.

(** ** The tree *)

Lemma build_heap_loop_spec (items : list (Z * Z)) (heap : list HuffmanNode) :
  ∃ heap', build_heap_loop items heap = Ok heap' ∧
           heap' ≫= leaves ≡ₚ items.*1 ++ (heap ≫= leaves).
Proof.
  revert heap. induction items as [|[char f] items IH]; intros heap; simpl.
  - by eexists.
  - destruct (heapq.heappush_spec heap (Leaf char f)) as (h & -> & Hp).
    simpl. destruct (IH h) as (heap' & -> & Hp').
    eexists; split; [done|]. rewrite Hp', Hp. simpl.
    by rewrite Permutation_middle.
Qed.

Lemma build_heap_spec (frequency : list (Z * Z)) :
  ∃ heap, build_heap frequency = Ok heap ∧ heap ≫= leaves ≡ₚ frequency.*1.
Proof.
  destruct (build_heap_loop_spec frequency []) as (heap & Hh & Hp).
  exists heap. split; [done|]. by rewrite Hp, app_nil_r.
Qed.

Lemma build_tree_loop_spec (heap : list HuffmanNode) :
  heap ≠ [] →
  ∃ root, build_tree_loop heap = Ok [root] ∧
          leaves root ≡ₚ heap ≫= leaves.
Proof.
  funelim (build_tree_loop heap); intros Hne;
    repeat match goal with
      | H : sigmaI _ _ _ = _ |- _ => clear H
      end.
  - destruct heap as [|root [|? heap]]; [done| |simpl in *; lia].
    exists root. split; [done|]. simpl. by rewrite app_nil_r.
  - destruct (merge_step_spec heap) as (n1 & n2 & rest & h & Hh & Hp & Hp');
      [done|].
    rewrite Hh in Hm. simplify_eq.
    destruct H as (root & Hroot & Hl).
    { intros ->. by apply Permutation_nil_cons in Hp'. }
    exists root. split; [done|].
    rewrite Hl, Hp', Hp. simpl. by rewrite (assoc_L (++)).
  - exfalso. destruct (merge_step_spec heap) as (? & ? & ? & ? & ? & _);
      [done|congruence].
Qed.

(** Every non-empty input has a tree, and the leaves of the tree are the
    distinct symbols of the input, each once. *)
Lemma build_tree_spec (text : list Z) :
  text ≠ [] →
  ∃ heap root,
    build_heap (build_frequency_dict text) = Ok heap ∧
    build_tree heap = Ok (Some root) ∧
    NoDup (leaves root) ∧ ∀ c, c ∈ leaves root ↔ c ∈ text.
Proof.
  intros Hne.
  destruct (build_frequency_dict_keys text) as [Hnd Hin].
  destruct (build_heap_spec (build_frequency_dict text)) as (heap & Hh & Hp).
  destruct (build_tree_loop_spec heap) as (root & Hroot & Hl).
  { intros ->. simpl in Hp. apply Permutation_nil in Hp.
    destruct text as [|c text]; [done|].
    assert (c ∈ (build_frequency_dict (c :: text)).*1) as Hc
      by (apply Hin; set_solver).
    rewrite Hp in Hc. set_solver. }
  exists heap, root. split; [done|]. split.
  { unfold build_tree. by rewrite Hroot. }
  rewrite Hp in Hl. split.
  - by rewrite Hl.
  - intros c. by rewrite Hl.
Qed.

(** ** The code table *)

Lemma paths_leaves node : (paths node).*1 = leaves node.
Proof.
  induction node as [c f|f l IHl r IHr]; simpl; [done|].
  rewrite fmap_app, <- !list_fmap_compose, <- IHl, <- IHr.
  f_equal; apply list_fmap_ext; by intros ? [].
Qed.

Lemma elem_of_paths_internal f l r c w :
  (c, w) ∈ paths (Internal f l r) ↔
  (∃ w', w = String "0" w' ∧ (c, w') ∈ paths l) ∨
  (∃ w', w = String "1" w' ∧ (c, w') ∈ paths r).
Proof.
  simpl. rewrite elem_of_app, !list_elem_of_fmap. split.
  - intros [([c' w'] & [= -> ->] & Hin)|([c' w'] & [= -> ->] & Hin)]; eauto.
  - intros [(w' & -> & Hin)|(w' & -> & Hin)]; [left|right];
      by exists (c, w').
Qed.

Lemma elem_of_paths_leaves node c w : (c, w) ∈ paths node → c ∈ leaves node.
Proof.
  intros Hin. rewrite <- paths_leaves.
  apply list_elem_of_fmap. by exists (c, w).
Qed.

Lemma elem_of_leaves_paths node c : c ∈ leaves node → ∃ w, (c, w) ∈ paths node.
Proof.
  rewrite <- paths_leaves. intros ([c' w] & -> & Hin)%list_elem_of_fmap.
  by exists w.
Qed.

Lemma paths_is_bits node c w : (c, w) ∈ paths node → is_bits w.
Proof.
  revert w. induction node as [c' f|f l IHl r IHr]; intros w.
  - simpl. intros [= _ ->]%list_elem_of_singleton. done.
  - intros [(w' & -> & Hin)|(w' & -> & Hin)]%elem_of_paths_internal; simpl;
      eauto.
Qed.

(** Two leaves with different symbols have paths of which neither is a
    prefix of the other. *)
Lemma paths_prefix_free node c1 w1 c2 w2 :
  (c1, w1) ∈ paths node → (c2, w2) ∈ paths node → c1 ≠ c2 →
  ¬ str_prefix w1 w2.
Proof.
  revert w1 w2. induction node as [c f|f l IHl r IHr]; intros w1 w2.
  - simpl. intros [= -> _]%list_elem_of_singleton
      [= -> _]%list_elem_of_singleton. done.
  - intros [(w1' & -> & Hin1)|(w1' & -> & Hin1)]%elem_of_paths_internal
      [(w2' & -> & Hin2)|(w2' & -> & Hin2)]%elem_of_paths_internal Hne
      [u Hu]; rewrite str_app_cons in Hu; simplify_eq.
    + eapply IHl; [done..|]. by exists u.
    + eapply IHr; [done..|]. by exists u.
Qed.

(** [build_codes] leaves the code of a symbol that is not in the tree as it
    was, and gives a symbol of the tree the path of its leaf. *)
Lemma build_codes_node_notin node current_code self c :
  c ∉ leaves node →
  codes (build_codes_node node current_code self) !! c = codes self !! c.
Proof.
  revert current_code self.
  induction node as [c' f|f l IHl r IHr]; intros current_code self Hc; simpl.
  - apply lookup_insert_ne. set_solver.
  - simpl in Hc. rewrite IHr, IHl; set_solver.
Qed.

Lemma build_codes_node_in node current_code self c w :
  NoDup (leaves node) → (c, w) ∈ paths node →
  codes (build_codes_node node current_code self) !! c
  = Some (current_code +:+ w).
Proof.
  revert current_code self w.
  induction node as [c' f|f l IHl r IHr]; intros current_code self w Hnd.
  - simpl. intros [= -> ->]%list_elem_of_singleton.
    by rewrite lookup_insert_eq, str_app_nil_r.
  - simpl in Hnd. apply NoDup_app in Hnd as (Hl & Hlr & Hr).
    intros [(w' & -> & Hin)|(w' & -> & Hin)]%elem_of_paths_internal;
      cbn [build_codes_node].
    + rewrite build_codes_node_notin
        by (apply Hlr; by eapply elem_of_paths_leaves).
      rewrite (IHl _ _ w') by done. by rewrite str_app_assoc.
    + rewrite (IHr _ _ w') by done. by rewrite str_app_assoc.
Qed.

(** ** Bit strings *)

Lemma is_bits_app s t : is_bits (s +:+ t) ↔ is_bits s ∧ is_bits t.
Proof.
  induction s as [|c s IH]; [simpl; tauto|].
  rewrite str_app_cons. simpl. tauto.
Qed.

Lemma is_bits_str_repeat_0 n : is_bits (str_repeat "0" n).
Proof. induction n as [|n IH]; simpl; auto. Qed.

Lemma is_bits_substring s n m : is_bits s → is_bits (substring n m s).
Proof.
  revert n m. induction s as [|c s IH]; intros [|n] [|m]; simpl; try done.
  - intros [Hc Hs]. auto.
  - intros [Hc Hs]. auto.
  - intros [Hc Hs]. auto.
Qed.

Lemma substring_length s n m :
  n + m ≤ String.length s → String.length (substring n m s) = m.
Proof.
  revert n m. induction s as [|c s IH]; intros [|n] [|m]; simpl;
    try done; try lia.
  - intros. rewrite (IH 0 m) by lia. done.
  - intros. apply (IH n 0). lia.
  - intros. apply (IH n (S m)). lia.
Qed.

Lemma is_bits_format_08b (p : Z) : (1 ≤ p ≤ 8)%Z → is_bits (format_08b p).
Proof.
  intros Hp.
  assert (p = 1 ∨ p = 2 ∨ p = 3 ∨ p = 4 ∨ p = 5 ∨ p = 6 ∨ p = 7 ∨ p = 8)%Z
    as Hcases by lia.
  repeat (destruct Hcases as [->|Hcases]; [vm_compute; tauto|]).
  subst. vm_compute; tauto.
Qed.

Lemma int2_digits_bits s (acc : Z) :
  is_bits s →
  ∃ v, int2_digits acc s = Some v ∧
       (acc * 2 ^ Z.of_nat (String.length s) ≤ v
        < (acc + 1) * 2 ^ Z.of_nat (String.length s))%Z.
Proof.
  revert acc. induction s as [|c s IH]; intros acc; simpl.
  - intros _. exists acc. split; [done|]. lia.
  - intros [Hc Hs].
    rewrite Nat2Z.inj_succ, Z.pow_succ_r by lia.
    destruct Hc as [-> | ->]; simpl.
    + destruct (IH (2 * acc)%Z Hs) as (v & -> & Hv).
      exists v. split; [done|]. nia.
    + destruct (IH (2 * acc + 1)%Z Hs) as (v & -> & Hv).
      exists v. split; [done|]. nia.
Qed.

(** Eight binary digits read as a byte. *)
Lemma int2_byte s :
  is_bits s → String.length s = 8 →
  ∃ v, int2 s = Ok v ∧ (0 ≤ v < 256)%Z.
Proof.
  intros Hs Hlen. destruct (int2_digits_bits s 0 Hs) as (v & Hv & Hb).
  rewrite Hlen in Hb. exists v. split; [|lia].
  unfold int2. destruct s; [done|]. by rewrite Hv.
Qed.

(** ** Encoding *)

Lemma get_encoded_text_loop_spec self (text : list Z) encoded_text :
  (∀ c, c ∈ text → ∃ code, codes self !! c = Some code ∧ is_bits code) →
  is_bits encoded_text →
  ∃ r, get_encoded_text_loop self text encoded_text = Ok r ∧ is_bits r.
Proof.
  revert encoded_text. induction text as [|c text IH];
    intros encoded_text Hcodes Hbits; simpl.
  - by eexists.
  - destruct (Hcodes c) as (code & -> & Hcode); [set_solver|].
    apply IH; [set_solver|]. by apply is_bits_app.
Qed.

(** The position of the [k]-th byte of a padded text. *)
Lemma slice_chunk s k :
  8 * k + 8 ≤ String.length s →
  slice s (Some (Z.of_nat (8 * k))) (Some (Z.of_nat (8 * k) + 8)%Z)
  = substring (8 * k) 8 s.
Proof.
  intros Hk. unfold slice, adjust_index. cbn [from_option].
  destruct (Z.ltb_spec (Z.of_nat (8 * k)) 0); [lia|].
  destruct (Z.ltb_spec (Z.of_nat (8 * k) + 8) 0); [lia|].
  f_equal; lia.
Qed.

Lemma get_byte_array_loop_spec s k0 n b :
  is_bits s → 8 * (k0 + n) ≤ String.length s →
  ∃ vs, get_byte_array_loop s ((λ k, 8 * k) <$> seq k0 n) b = Ok (b ++ vs) ∧
        length vs = n.
Proof.
  intros Hs. revert k0 b. induction n as [|n IH]; intros k0 b Hlen.
  - exists []. by rewrite app_nil_r.
  - cbn [seq]. rewrite fmap_cons. cbn [get_byte_array_loop].
    rewrite slice_chunk by lia.
    destruct (int2_byte (substring (8 * k0) 8 s)) as (v & -> & Hv).
    { by apply is_bits_substring. }
    { apply substring_length. lia. }
    cbn [mbind result_bind].
    unfold bytearray_append. rewrite decide_True by done.
    cbn [mbind result_bind].
    destruct (IH (S k0) (b ++ [v])) as (vs & Hvs & Hl); [lia|].
    exists (v :: vs). rewrite Hvs, <- (assoc_L (++)).
    split; [done|]. simpl. by rewrite Hl.
Qed.

Lemma range_step_8 m : range_step (8 * m) 8 = (λ k, 8 * k) <$> seq 0 m.
Proof.
  unfold range_step. do 2 f_equal.
  replace (8 * m + (8 - 1)) with (7 + m * 8) by lia.
  rewrite Nat.div_add by lia. done.
Qed.

(** A padded text packs into bytes, the first of which is the header. *)
Lemma get_byte_array_spec hdr rest (p : Z) m :
  is_bits hdr → is_bits rest →
  String.length hdr = 8 → String.length rest = 8 * m → int2 hdr = Ok p →
  ∃ vs, get_byte_array (hdr +:+ rest) = Ok (p :: vs) ∧ length vs = m.
Proof.
  intros Hhdr Hrest Hlen Hm Hp. unfold get_byte_array.
  assert (String.length (hdr +:+ rest) = 8 * S m) as Hl
    by (rewrite str_length_app; lia).
  rewrite Hl, decide_False; last first.
  { intros Hne. apply Hne. rewrite Nat.mul_comm. apply Nat.Div0.mod_mul. }
  rewrite range_step_8.
  cbn [seq]. rewrite fmap_cons. cbn [get_byte_array_loop].
  rewrite (slice_chunk _ 0) by lia.
  replace (substring (8 * 0) 8 (hdr +:+ rest)) with hdr
    by (rewrite <- (substring_take_app hdr rest) at 1; by rewrite Hlen).
  rewrite Hp.
  destruct (int2_byte hdr Hhdr Hlen) as (v & Hv & Hb).
  rewrite Hp in Hv. simplify_eq.
  cbn [mbind result_bind].
  unfold bytearray_append. rewrite decide_True by done.
  cbn [mbind result_bind app].
  destruct (get_byte_array_loop_spec (hdr +:+ rest) 1 m [v]) as (vs & Hvs & ?).
  { by apply is_bits_app. }
  { lia. }
  exists vs. by rewrite Hvs.
Qed.

(** ** [compress] on a non-empty input *)

Lemma padded_length encoded_text :
  String.length
    (encoded_text
     +:+ str_repeat "0" (Z.to_nat (extra_padding_of encoded_text)))
  = 8 * (String.length encoded_text / 8 + 1).
Proof.
  rewrite str_length_app, str_repeat_length. unfold extra_padding_of.
  change 8%Z with (Z.of_nat 8). rewrite <- Nat2Z.inj_mod.
  pose proof (Nat.div_mod_eq (String.length encoded_text) 8).
  pose proof (Nat.mod_upper_bound (String.length encoded_text) 8).
  lia.
Qed.

(** Every step of [compress] succeeds on a non-empty input, whatever the
    state of the instance. *)
Lemma compress_spec self (text : list Z) :
  text ≠ [] →
  ∃ heap root encoded_text b,
    build_heap (build_frequency_dict text) = Ok heap ∧
    build_tree heap = Ok (Some root) ∧
    NoDup (leaves root) ∧ (∀ c, c ∈ leaves root ↔ c ∈ text) ∧
    get_encoded_text (build_codes_node root EmptyString self) text
      = Ok encoded_text ∧
    is_bits encoded_text ∧
    get_byte_array (pad_encoded_text encoded_text)
      = Ok (extra_padding_of encoded_text :: b) ∧
    compress self text
    = mkOutcome (build_codes_node root EmptyString self)
        (Some {| art_reverse_mapping :=
                   reverse_mapping (build_codes_node root EmptyString self);
                 art_compressed_data := extra_padding_of encoded_text :: b |})
        (Ok (true, "Compression successful")).
Proof.
  intros Hne.
  destruct (build_tree_spec text Hne) as (heap & root & Hheap & Hroot & Hnd & Hin).
  destruct (get_encoded_text_loop_spec
              (build_codes_node root EmptyString self) text EmptyString)
    as (encoded_text & Henc & Hbits); [|done|].
  { intros c Hc. apply Hin in Hc.
    destruct (elem_of_leaves_paths _ _ Hc) as [w Hw].
    exists w. split; [|by eapply paths_is_bits].
    by rewrite (build_codes_node_in root EmptyString self c w). }
  pose proof (extra_padding_of_bounds encoded_text) as Hp.
  destruct (format_08b_header _ Hp) as [Hlen Hint].
  destruct (get_byte_array_spec (format_08b (extra_padding_of encoded_text))
              (encoded_text
               +:+ str_repeat "0" (Z.to_nat (extra_padding_of encoded_text)))
              (extra_padding_of encoded_text)
              (String.length encoded_text / 8 + 1))
    as (b & Hb & _).
  { by apply is_bits_format_08b. }
  { apply is_bits_app. split; [done|apply is_bits_str_repeat_0]. }
  { done. }
  { apply padded_length. }
  { done. }
  rewrite <- pad_encoded_text_eq in Hb.
  exists heap, root, encoded_text, b. split_and!; try done.
  unfold compress. rewrite decide_False by (by destruct text).
  rewrite Hheap, Hroot. cbn [build_codes].
  unfold get_encoded_text in Henc |- *. rewrite Henc, Hb. done.
Qed.

(** ** [decompress] *)

Lemma payload_bits_fold (compressed_data : list Z) bit_string :
  fold_left (λ bit_string byte, bit_string +:+ byte_bits byte)
    compressed_data bit_string
  = bit_string +:+ payload_bits compressed_data.
Proof.
  unfold payload_bits. revert bit_string.
  induction compressed_data as [|byte data IH]; intros bit_string; simpl.
  - by rewrite str_app_nil_r.
  - rewrite IH, (IH (EmptyString +:+ _)), str_app_nil_l.
    by rewrite str_app_assoc.
Qed.

Lemma payload_bits_cons byte (compressed_data : list Z) :
  payload_bits (byte :: compressed_data)
  = byte_bits byte +:+ payload_bits compressed_data.
Proof.
  unfold payload_bits at 1. simpl. by rewrite payload_bits_fold.
Qed.

(** The values [build_codes] stores in the reverse mapping are symbols of
    the tree; the other entries are the ones that were there before. *)
Lemma build_codes_node_reverse node current_code self code char :
  reverse_mapping (build_codes_node node current_code self) !! code
    = Some char →
  char ∈ leaves node ∨ reverse_mapping self !! code = Some char.
Proof.
  revert current_code self.
  induction node as [c f|f l IHl r IHr]; intros current_code self; simpl.
  - rewrite lookup_insert. case_decide; [|by right].
    intros [= ->]. left. set_solver.
  - intros [Hr|[Hl|Hs]%IHl]%IHr; set_solver.
Qed.

Lemma decode_text_loop_total self encoded_text current_code decoded_bytes :
  byte_values (reverse_mapping self) →
  ∃ r, decode_text_loop self encoded_text current_code decoded_bytes = Ok r.
Proof.
  intros Hbytes. revert current_code decoded_bytes.
  induction encoded_text as [|bit encoded_text IH];
    intros current_code decoded_bytes; simpl; [by eexists|].
  destruct (reverse_mapping self !! _) as [char|] eqn:Hchar; [|apply IH].
  unfold bytearray_append. rewrite decide_True by (by eapply Hbytes).
  apply IH.
Qed.

Lemma decode_text_total self encoded_text :
  byte_values (reverse_mapping self) →
  ∃ decoded_bytes, decode_text self encoded_text = Ok decoded_bytes.
Proof.
  intros Hbytes. unfold decode_text.
  destruct (decode_text_loop_total self encoded_text EmptyString [] Hbytes)
    as ([residual decoded_bytes] & ->).
  by eexists.
Qed.

(** [decompress] on a payload whose first byte is a given header. *)
Lemma decompress_header self reverse (p : Z) (rest : list Z) :
  String.length (byte_bits p) = 8 → int2 (byte_bits p) = Ok p →
  byte_values reverse →
  ∃ decoded_bytes,
    decode_text {| codes := codes self; reverse_mapping := reverse |}
      (slice (payload_bits rest) None (Some (- p)%Z)) = Ok decoded_bytes ∧
    decompress self
      {| art_reverse_mapping := reverse; art_compressed_data := p :: rest |}
    = mkOutcome {| codes := codes self; reverse_mapping := reverse |}
        (Some decoded_bytes) (Ok (true, "Decompression successful")).
Proof.
  intros Hlen Hint Hbytes.
  destruct (decode_text_total
              {| codes := codes self; reverse_mapping := reverse |}
              (slice (payload_bits rest) None (Some (- p)%Z)) Hbytes)
    as (decoded_bytes & Hdec).
  exists decoded_bytes. split; [done|].
  unfold decompress. cbn [art_reverse_mapping art_compressed_data].
  rewrite payload_bits_cons, (remove_padding_header _ _ p Hlen Hint), Hdec.
  done.
Qed.

(** The candidate left when the bits run out is not a key of the reverse
    mapping. *)
Lemma decode_text_loop_residual self encoded_text current_code decoded_bytes
    residual decoded_bytes' :
  decode_text_loop self encoded_text current_code decoded_bytes
    = Ok (residual, decoded_bytes') →
  (current_code ≠ EmptyString → reverse_mapping self !! current_code = None) →
  residual ≠ EmptyString → reverse_mapping self !! residual = None.
Proof.
  revert current_code decoded_bytes.
  induction encoded_text as [|bit encoded_text IH];
    intros current_code decoded_bytes; simpl.
  - intros [= <- <-]. auto.
  - destruct (reverse_mapping self !! (current_code +:+ String bit EmptyString))
      as [char|] eqn:Hchar.
    + destruct (bytearray_append decoded_bytes char);
        cbn [mbind result_bind]; [|done].
      intros Hloop _ Hres.
      eapply IH; [exact Hloop| |exact Hres]. by intros [].
    + intros Hloop _ Hres. eapply IH; [exact Hloop| |exact Hres].
      by intros _.
Qed.

(** What [remove_padding] returns for a header that reads a positive count:
    the text after the header without its last [p] characters. *)
Lemma remove_padding_positive hdr rest (p : Z) :
  String.length hdr = 8 → int2 hdr = Ok p → (0 < p)%Z →
  remove_padding (hdr +:+ rest)
  = Ok (substring 0 (String.length rest - Z.to_nat p) rest).
Proof.
  intros Hlen Hint Hp.
  by rewrite (remove_padding_header _ _ p Hlen Hint), slice_drop_last.
Qed.

(** ** The round trip of an input with two symbols or more *)

Lemma build_codes_node_reverse_notin node current_code self key :
  (∀ c w, (c, w) ∈ paths node → key ≠ current_code +:+ w) →
  reverse_mapping (build_codes_node node current_code self) !! key
  = reverse_mapping self !! key.
Proof.
  revert current_code self.
  induction node as [c f|f l IHl r IHr]; intros current_code self Hkey.
  - simpl. apply lookup_insert_ne. intros <-.
    apply (Hkey c EmptyString); [set_solver|]. by rewrite str_app_nil_r.
  - cbn [build_codes_node]. rewrite IHr, IHl; [done| |].
    + intros c w Hin ->. apply (Hkey c (String "0" w)).
      * apply elem_of_paths_internal. left. by exists w.
      * by rewrite str_app_assoc.
    + intros c w Hin ->. apply (Hkey c (String "1" w)).
      * apply elem_of_paths_internal. right. by exists w.
      * by rewrite str_app_assoc.
Qed.

Lemma build_codes_node_reverse_in node current_code self c w :
  (c, w) ∈ paths node →
  reverse_mapping (build_codes_node node current_code self)
    !! (current_code +:+ w) = Some c.
Proof.
  revert current_code self w.
  induction node as [c' f|f l IHl r IHr]; intros current_code self w.
  - simpl. intros [= -> ->]%list_elem_of_singleton.
    by rewrite str_app_nil_r, lookup_insert_eq.
  - intros [(w' & -> & Hin)|(w' & -> & Hin)]%elem_of_paths_internal;
      cbn [build_codes_node].
    + rewrite build_codes_node_reverse_notin.
      * rewrite <- (IHl (current_code +:+ "0") self w' Hin).
        by rewrite str_app_assoc.
      * intros c'' w'' _. rewrite str_app_assoc.
        intros Heq%str_app_inv_head. done.
    + rewrite <- (IHr (current_code +:+ "1")
                    (build_codes_node l (current_code +:+ "0") self) w' Hin).
      by rewrite str_app_assoc.
Qed.

Lemma build_codes_node_reverse_inv node current_code self key c :
  reverse_mapping (build_codes_node node current_code self) !! key = Some c →
  (∃ w, (c, w) ∈ paths node ∧ key = current_code +:+ w) ∨
  reverse_mapping self !! key = Some c.
Proof.
  revert current_code self.
  induction node as [c' f|f l IHl r IHr]; intros current_code self.
  - simpl. rewrite lookup_insert. case_decide as Hk; [|by right].
    intros [= ->]. left. exists EmptyString.
    split; [set_solver|]. by rewrite str_app_nil_r.
  - cbn [build_codes_node].
    intros [(w & Hin & ->)|[(w & Hin & ->)|Hs]%IHl]%IHr; [left|left|by right].
    + exists (String "1" w). split; [|by rewrite str_app_assoc].
      apply elem_of_paths_internal. right. by exists w.
    + exists (String "0" w). split; [|by rewrite str_app_assoc].
      apply elem_of_paths_internal. left. by exists w.
Qed.

Lemma decode_text_loop_app self a b current_code decoded_bytes
    current_code' decoded_bytes' :
  decode_text_loop self a current_code decoded_bytes
    = Ok (current_code', decoded_bytes') →
  decode_text_loop self (a +:+ b) current_code decoded_bytes
  = decode_text_loop self b current_code' decoded_bytes'.
Proof.
  revert current_code decoded_bytes.
  induction a as [|bit a IH]; intros current_code decoded_bytes.
  - simpl. by intros [= -> ->].
  - rewrite str_app_cons. cbn [decode_text_loop].
    destruct (reverse_mapping self !! (current_code +:+ String bit EmptyString))
      as [char|]; [|apply IH].
    destruct (bytearray_append decoded_bytes char);
      cbn [mbind result_bind]; [apply IH|done].
Qed.

Section decode.
Variable self : HuffmanCompressor.
Variable table : list (Z * string).

Hypothesis reverse_table :
  ∀ key c, reverse_mapping self !! key = Some c ↔ (c, key) ∈ table.
Hypothesis codes_table :
  ∀ c w, (c, w) ∈ table → codes self !! c = Some w.
Hypothesis table_prefix_free :
  ∀ c1 w1 c2 w2,
    (c1, w1) ∈ table → (c2, w2) ∈ table → c1 ≠ c2 → ¬ str_prefix w1 w2.
Hypothesis table_nonempty :
  ∀ c w, (c, w) ∈ table → w ≠ EmptyString.
Hypothesis table_bytes :
  ∀ c w, (c, w) ∈ table → (0 ≤ c < 256)%Z.

(** Reading the rest [w2] of a code [w1 w2] emits its symbol and empties
    the candidate: no shorter candidate is a key. *)
Lemma decode_code_suffix c w2 w1 rest decoded_bytes :
  (c, w1 +:+ w2) ∈ table → w2 ≠ EmptyString →
  decode_text_loop self (w2 +:+ rest) w1 decoded_bytes
  = decode_text_loop self rest EmptyString (decoded_bytes ++ [c]).
Proof.
  revert w1. induction w2 as [|bit w2 IH]; intros w1 Hin Hne; [done|].
  rewrite str_app_cons. cbn [decode_text_loop].
  assert ((w1 +:+ String bit EmptyString) +:+ w2 = w1 +:+ String bit w2)
    as Hsplit by (by rewrite str_app_assoc).
  destruct w2 as [|bit' w2].
  - rewrite (proj2 (reverse_table _ c) Hin).
    unfold bytearray_append.
    rewrite decide_True by (by eapply table_bytes). done.
  - destruct (reverse_mapping self !! (w1 +:+ String bit EmptyString))
      as [c'|] eqn:Hlookup.
    + exfalso. apply reverse_table in Hlookup.
      destruct (decide (c' = c)) as [->|Hc].
      * apply codes_table in Hlookup, Hin. rewrite Hlookup in Hin.
        injection Hin as Heq. apply str_app_inv_head in Heq. done.
      * eapply table_prefix_free; [exact Hlookup|exact Hin|exact Hc|].
        by exists (String bit' w2).
    + apply IH; [by rewrite Hsplit|done].
Qed.

Lemma decode_encoded (text : list Z) encoded_text decoded_bytes r :
  (∀ c, c ∈ text → ∃ w, (c, w) ∈ table) →
  decode_text_loop self encoded_text EmptyString []
    = Ok (EmptyString, decoded_bytes) →
  get_encoded_text_loop self text encoded_text = Ok r →
  decode_text_loop self r EmptyString []
  = Ok (EmptyString, decoded_bytes ++ text).
Proof.
  revert encoded_text decoded_bytes.
  induction text as [|c text IH]; intros encoded_text decoded_bytes Hin Hdec.
  - simpl. intros [= <-]. by rewrite app_nil_r.
  - destruct (Hin c) as [w Hw]; [set_solver|].
    simpl. rewrite (codes_table c w Hw). intros Hr.
    rewrite (IH (encoded_text +:+ w) (decoded_bytes ++ [c]));
      [by rewrite <- (assoc_L (++))|set_solver| |done].
    rewrite (decode_text_loop_app _ _ _ _ _ _ _ Hdec).
    rewrite <- (str_app_nil_r w) at 1.
    rewrite (decode_code_suffix c w EmptyString EmptyString);
      [done|done|by eapply table_nonempty].
Qed.

End decode.

(** The bits of a byte read from eight binary digits are those digits. *)
Lemma byte_bits_int2 s (v : Z) :
  is_bits s → String.length s = 8 → int2 s = Ok v → byte_bits v = s.
Proof.
  intros Hbits Hlen.
  do 8 (destruct s as [|? s]; [done|]; destruct Hbits as [[-> | ->] Hbits]).
  all: destruct s; [|done].
  all: intros [= <-]; reflexivity.
Qed.

Lemma substring_split s a m1 m2 :
  substring a (m1 + m2) s = substring a m1 s +:+ substring (a + m1) m2 s.
Proof.
  revert a m1. induction s as [|c s IH]; intros a m1.
  - by destruct a, m1, m2.
  - destruct a as [|a].
    + destruct m1 as [|m1]; [done|].
      cbn [Nat.add substring]. rewrite str_app_cons. f_equal. apply (IH 0).
    + cbn [Nat.add substring]. apply IH.
Qed.

Lemma payload_bits_app (l1 l2 : list Z) :
  payload_bits (l1 ++ l2) = payload_bits l1 +:+ payload_bits l2.
Proof.
  unfold payload_bits at 1. rewrite fold_left_app.
  by rewrite payload_bits_fold.
Qed.

Lemma get_byte_array_loop_bits s k0 n b :
  is_bits s → 8 * (k0 + n) ≤ String.length s →
  ∃ vs, get_byte_array_loop s ((λ k, 8 * k) <$> seq k0 n) b = Ok (b ++ vs) ∧
        payload_bits vs = substring (8 * k0) (8 * n) s.
Proof.
  intros Hs. revert k0 b. induction n as [|n IH]; intros k0 b Hlen.
  - exists []. rewrite app_nil_r. split; [done|].
    by rewrite Nat.mul_0_r, substring_n_0.
  - cbn [seq]. rewrite fmap_cons. cbn [get_byte_array_loop].
    rewrite slice_chunk by lia.
    assert (is_bits (substring (8 * k0) 8 s)) as Hchunk
      by (by apply is_bits_substring).
    assert (String.length (substring (8 * k0) 8 s) = 8) as Hclen
      by (apply substring_length; lia).
    destruct (int2_byte _ Hchunk Hclen) as (v & Hv & Hb). rewrite Hv.
    cbn [mbind result_bind].
    unfold bytearray_append. rewrite decide_True by done.
    cbn [mbind result_bind].
    destruct (IH (S k0) (b ++ [v])) as (vs & Hvs & Hl); [lia|].
    exists (v :: vs). rewrite Hvs, <- (assoc_L (++)).
    split; [done|].
    rewrite payload_bits_cons, Hl, (byte_bits_int2 _ v Hchunk Hclen Hv).
    replace (8 * S n) with (8 + 8 * n) by lia.
    replace (8 * S k0) with (8 * k0 + 8) by lia.
    by rewrite substring_split.
Qed.

(** Packing a padded text into bytes and expanding the bytes gives the
    padded text back. *)
Lemma payload_bits_get_byte_array s m b :
  is_bits s → String.length s = 8 * m →
  get_byte_array s = Ok b → payload_bits b = s.
Proof.
  intros Hs Hlen. unfold get_byte_array.
  rewrite Hlen, decide_False; last first.
  { intros Hne. apply Hne. rewrite Nat.mul_comm. apply Nat.Div0.mod_mul. }
  rewrite range_step_8.
  destruct (get_byte_array_loop_bits s 0 m [] Hs) as (vs & -> & Hbits);
    [lia|].
  intros [= <-]. cbn [app]. rewrite Hbits, <- Hlen. apply substring_all.
Qed.

Lemma decode_text_loop_ext self1 self2 encoded_text current_code
    decoded_bytes :
  reverse_mapping self1 = reverse_mapping self2 →
  decode_text_loop self1 encoded_text current_code decoded_bytes
  = decode_text_loop self2 encoded_text current_code decoded_bytes.
Proof.
  intros Heq. revert current_code decoded_bytes.
  induction encoded_text as [|bit encoded_text IH];
    intros current_code decoded_bytes; simpl; [done|].
  rewrite Heq.
  destruct (reverse_mapping self2 !! _) as [char|]; [|apply IH].
  destruct (bytearray_append decoded_bytes char);
    cbn [mbind result_bind]; [apply IH|done].
Qed.

Lemma pad_encoded_text_bits encoded_text :
  is_bits encoded_text →
  is_bits (pad_encoded_text encoded_text) ∧
  String.length (pad_encoded_text encoded_text)
  = 8 * (String.length encoded_text / 8 + 2).
Proof.
  intros Hbits. rewrite pad_encoded_text_eq.
  pose proof (extra_padding_of_bounds encoded_text) as Hp.
  destruct (format_08b_header _ Hp) as [Hlen _]. split.
  - apply is_bits_app. split; [by apply is_bits_format_08b|].
    apply is_bits_app. split; [done|apply is_bits_str_repeat_0].
  - rewrite str_length_app, Hlen, padded_length. lia.
Qed.

(** On a new compressor, a buffer of bytes with two distinct values or more
    is compressed into an artifact from which [decompress], on any
    compressor, writes the buffer back. *)
Theorem round_trip_two_symbols self' (text : list Z) (s1 s2 : Z) :
  Forall (λ c, 0 ≤ c < 256)%Z text → s1 ∈ text → s2 ∈ text → s1 ≠ s2 →
  ∃ self art,
    compress new_compressor text
    = mkOutcome self (Some art) (Ok (true, "Compression successful")) ∧
    decompress self' art
    = mkOutcome
        {| codes := codes self'; reverse_mapping := art_reverse_mapping art |}
        (Some text) (Ok (true, "Decompression successful")).
Proof.
  intros Hbytes H1 H2 Hs.
  assert (text ≠ []) as Hne by (intros ->; set_solver).
  destruct (compress_spec new_compressor text Hne)
    as (heap & root & enc & b & _ & _ & Hnd & Hin & Henc & Hbits & Hb & Hc).
  set (self := build_codes_node root EmptyString new_compressor) in *.
  exists self. eexists. split; [exact Hc|].
  (* the code table is the list of the paths of the tree *)
  assert (∀ key c, reverse_mapping self !! key = Some c ↔ (c, key) ∈ paths root)
    as Hreverse.
  { intros key c. split.
    - intros [(w & Hw & ->)|Hempty]%build_codes_node_reverse_inv; [done|].
      cbn [new_compressor reverse_mapping] in Hempty.
      by rewrite lookup_empty in Hempty.
    - intros Hw.
      apply (build_codes_node_reverse_in root EmptyString new_compressor c key
               Hw). }
  assert (∀ c w, (c, w) ∈ paths root → codes self !! c = Some w) as Hcodes.
  { intros c w Hw. unfold self.
    by rewrite (build_codes_node_in root EmptyString new_compressor c w). }
  assert (∀ c w, (c, w) ∈ paths root → w ≠ EmptyString) as Hnonempty.
  { destruct root as [c f|f l r].
    - exfalso. apply Hs. apply Hin in H1, H2. simpl in H1, H2. set_solver.
    - intros c w [(w' & -> & _)|(w' & -> & _)]%elem_of_paths_internal; done. }
  assert (decode_text_loop self enc EmptyString [] = Ok (EmptyString, text))
    as Hdecode.
  { apply (decode_encoded self (paths root) Hreverse Hcodes
             (paths_prefix_free root) Hnonempty) with (encoded_text := EmptyString)
                                                      (decoded_bytes := []).
    - intros c w Hw%elem_of_paths_leaves%Hin.
      rewrite Forall_forall in Hbytes. by apply Hbytes.
    - intros c Hc'%Hin. by apply elem_of_leaves_paths.
    - done.
    - exact Henc. }
  destruct (pad_encoded_text_bits enc Hbits) as [Hpbits Hplen].
  unfold decompress. cbn [art_reverse_mapping art_compressed_data].
  rewrite (payload_bits_get_byte_array _ _ _ Hpbits Hplen Hb).
  rewrite remove_padding_pad. unfold decode_text.
  rewrite (decode_text_loop_ext _ self) by done.
  by rewrite Hdecode.
Qed.

(** * The claims *)

Lemma compress_aaabbc :
  out_file (compress new_compressor aaabbc)
  = Some {| art_reverse_mapping := aaabbc_mapping;
            art_compressed_data := [7; 31; 0]%Z |}.
Proof. by vm_compute. Qed.

(** C1 (the code does not do this): the round trip of a buffer with one
    distinct byte value is lost.  [compress(bytes([7]*1000))] succeeds with
    the two-byte payload [8, 0] and the reverse mapping [{'': 7}], and
    [decompress] of that artifact succeeds with an empty output instead of
    1000 bytes of value 7. *)
Theorem single_symbol_round_trip_lost :
  compress new_compressor (replicate 1000 7%Z)
  = mkOutcome
      {| codes := {[ 7%Z := EmptyString ]};
         reverse_mapping := {[ EmptyString := 7%Z ]} |}
      (Some {| art_reverse_mapping := {[ EmptyString := 7%Z ]};
               art_compressed_data := [8; 0]%Z |})
      (Ok (true, "Compression successful")) ∧
  decompress new_compressor
    {| art_reverse_mapping := {[ EmptyString := 7%Z ]};
       art_compressed_data := [8; 0]%Z |}
  = mkOutcome
      {| codes := ∅; reverse_mapping := {[ EmptyString := 7%Z ]} |}
      (Some []) (Ok (true, "Decompression successful")).
Proof. split; by vm_compute. Qed.

(** C2 (the code does not do this): when the root of the tree is a leaf,
    [build_codes] gives its symbol the empty string as code, not a code of
    one bit or more; this is what happens for [bytes([7]*1000)]. *)
Theorem single_leaf_code_is_empty :
  (∀ char f self,
     codes (build_codes (Some (Leaf char f)) EmptyString self) !! char
     = Some EmptyString) ∧
  (build_heap (build_frequency_dict (replicate 1000 7%Z)) ≫= build_tree)
  = Ok (Some (Leaf 7 1000)) ∧
  codes (out_self (compress new_compressor (replicate 1000 7%Z))) !! 7%Z
  = Some EmptyString.
Proof.
  split; [|split; by vm_compute].
  intros char f self. simpl. apply lookup_insert_eq.
Qed.




(** C4 (the code does not do this): [compress] never empties
    [self.reverse_mapping].  Compressing [1 2 3] on the compressor that has
    compressed [4 5] stores the entry ['1': 5] of the earlier call in the
    artifact, which a new compressor does not, and [decompress] of that
    artifact writes [5 3 5 5 3] instead of [1 2 3]. *)
Theorem compress_reuse_keeps_stale_mapping :
  out_file (compress new_compressor [1; 2; 3]%Z)
  = Some {| art_reverse_mapping :=
              <["0":=3%Z]> (<["10":=1%Z]> (<["11":=2%Z]> ∅));
            art_compressed_data := [3; 176]%Z |} ∧
  out_file (compress (out_self (compress new_compressor [4; 5]%Z)) [1; 2; 3]%Z)
  = Some {| art_reverse_mapping :=
              <["1":=5%Z]> (<["0":=3%Z]> (<["10":=1%Z]> (<["11":=2%Z]> ∅)));
            art_compressed_data := [3; 176]%Z |} ∧
  out_file (compress (out_self (compress new_compressor [4; 5]%Z)) [1; 2; 3]%Z)
  ≠ out_file (compress new_compressor [1; 2; 3]%Z) ∧
  out_file
    (decompress new_compressor
       {| art_reverse_mapping :=
            <["1":=5%Z]> (<["0":=3%Z]> (<["10":=1%Z]> (<["11":=2%Z]> ∅)));
          art_compressed_data := [3; 176]%Z |})
  = Some [5; 3; 5; 5; 3]%Z.
Proof.
  assert (out_file (compress new_compressor [1; 2; 3]%Z)
          = Some {| art_reverse_mapping :=
                      <["0":=3%Z]> (<["10":=1%Z]> (<["11":=2%Z]> ∅));
                    art_compressed_data := [3; 176]%Z |}) as Hfresh
    by (by vm_compute).
  assert (out_file
            (compress (out_self (compress new_compressor [4; 5]%Z))
               [1; 2; 3]%Z)
          = Some {| art_reverse_mapping :=
                      <["1":=5%Z]>
                        (<["0":=3%Z]> (<["10":=1%Z]> (<["11":=2%Z]> ∅)));
                    art_compressed_data := [3; 176]%Z |}) as Hreused
    by (by vm_compute).
  split; [exact Hfresh|]. split; [exact Hreused|]. split; [|by vm_compute].
  rewrite Hfresh, Hreused. intros Heq.
  apply (f_equal (λ o : option Artifact,
                    o ≫= λ a, art_reverse_mapping a !! "1")) in Heq.
  by vm_compute in Heq.
Qed.

(** C5, as the code has it: [decompress] has no check of the padding count.
    For every artifact that [compress] makes from a buffer of bytes, on a
    compressor whose reverse mapping held only bytes before the call (a new
    compressor, or one that has compressed buffers of bytes only, see
    [byte_values_compress]), setting the padding-count byte to 9 makes
    [decompress] return [(True, "Decompression successful")] and write the
    bytes decoded from the payload bits without their last 9. *)
Theorem decompress_padding_nine self self' (text : list Z) art :
  Forall (λ c, 0 ≤ c < 256)%Z text →
  byte_values (reverse_mapping self) →
  out_file (compress self text) = Some art →
  ∃ p rest decoded_bytes,
    art_compressed_data art = p :: rest ∧
    decode_text
      {| codes := codes self'; reverse_mapping := art_reverse_mapping art |}
      (slice (payload_bits rest) None (Some (- 9)%Z)) = Ok decoded_bytes ∧
    decompress self'
      {| art_reverse_mapping := art_reverse_mapping art;
         art_compressed_data := 9%Z :: rest |}
    = mkOutcome
        {| codes := codes self'; reverse_mapping := art_reverse_mapping art |}
        (Some decoded_bytes) (Ok (true, "Decompression successful")).
Proof.
  intros Hbytes Hself Hart.
  assert (text ≠ []) as Hne by (by intros ->).
  destruct (compress_spec self text Hne)
    as (heap & root & enc & b & _ & _ & _ & Hin & _ & _ & _ & Hc).
  rewrite Hc in Hart. cbn [out_file] in Hart. simplify_eq.
  cbn [art_reverse_mapping art_compressed_data].
  destruct (decompress_header self'
              (reverse_mapping (build_codes_node root EmptyString self)) 9 b)
    as (decoded_bytes & Hdec & Hd); [by vm_compute..| |].
  { intros code char [Hl|Hs]%build_codes_node_reverse; [|by eapply Hself].
    rewrite Forall_forall in Hbytes. apply Hbytes, Hin, Hl. }
  by eexists _, b, decoded_bytes.
Qed.

Lemma decompress_padding_nine_witness :
  Forall (λ c, 0 ≤ c < 256)%Z aaabbc ∧
  byte_values (reverse_mapping new_compressor) ∧
  out_file (compress new_compressor aaabbc)
  = Some {| art_reverse_mapping := aaabbc_mapping;
            art_compressed_data := [7; 31; 0]%Z |} ∧
  ∃ p rest decoded_bytes,
    [7; 31; 0]%Z = p :: rest ∧
    decode_text
      {| codes := codes new_compressor; reverse_mapping := aaabbc_mapping |}
      (slice (payload_bits rest) None (Some (- 9)%Z)) = Ok decoded_bytes ∧
    decompress new_compressor
      {| art_reverse_mapping := aaabbc_mapping;
         art_compressed_data := 9%Z :: rest |}
    = mkOutcome
        {| codes := codes new_compressor; reverse_mapping := aaabbc_mapping |}
        (Some decoded_bytes) (Ok (true, "Decompression successful")).
Proof.
  assert (Forall (λ c, 0 ≤ c < 256)%Z aaabbc) as Hbytes
    by (repeat constructor; lia).
  assert (byte_values (reverse_mapping new_compressor)) as Hself
    by (intros code char Hlookup; by vm_compute in Hlookup).
  pose proof compress_aaabbc as Hart.
  split; [exact Hbytes|]. split; [exact Hself|]. split; [exact Hart|].
  exact (decompress_padding_nine new_compressor new_compressor aaabbc _
           Hbytes Hself Hart).
Defined.

(** The artifact of [b"aaabbc"] with its padding-count byte set to 9:
    [decompress] reports success and writes [b"aaabb"]. *)
Lemma padding_nine_is_accepted :
  out_file (compress new_compressor aaabbc)
  = Some {| art_reverse_mapping := aaabbc_mapping;
            art_compressed_data := [7; 31; 0]%Z |} ∧
  decompress new_compressor
    {| art_reverse_mapping := aaabbc_mapping;
       art_compressed_data := [9; 31; 0]%Z |}
  = mkOutcome {| codes := ∅; reverse_mapping := aaabbc_mapping |}
      (Some [97; 97; 97; 98; 98]%Z) (Ok (true, "Decompression successful")).
Proof. split; by vm_compute. Qed.

(** C6, as the code has it: [decode_text] drops the candidate that is left
    when the bits run out.  When a non-empty candidate that matches no key
    of the reverse mapping remains, [decompress] still returns
    [(True, "Decompression successful")] and writes the bytes decoded
    before it. *)
Theorem decompress_residual_dropped self art encoded_text residual
    decoded_bytes :
  remove_padding (payload_bits (art_compressed_data art)) = Ok encoded_text →
  decode_text_loop
    {| codes := codes self; reverse_mapping := art_reverse_mapping art |}
    encoded_text EmptyString [] = Ok (residual, decoded_bytes) →
  residual ≠ EmptyString →
  art_reverse_mapping art !! residual = None ∧
  decompress self art
  = mkOutcome
      {| codes := codes self; reverse_mapping := art_reverse_mapping art |}
      (Some decoded_bytes) (Ok (true, "Decompression successful")).
Proof.
  intros Hpad Hloop Hres. split.
  - by apply (decode_text_loop_residual _ _ _ _ _ _ Hloop).
  - unfold decompress, decode_text. by rewrite Hpad, Hloop.
Qed.

Lemma decompress_residual_dropped_witness :
  art_reverse_mapping
    {| art_reverse_mapping := aaabbc_mapping;
       art_compressed_data := [7; 128]%Z |} !! "1" = None ∧
  decompress new_compressor
    {| art_reverse_mapping := aaabbc_mapping;
       art_compressed_data := [7; 128]%Z |}
  = mkOutcome
      {| codes := codes new_compressor; reverse_mapping := aaabbc_mapping |}
      (Some []) (Ok (true, "Decompression successful")).
Proof.
  apply (decompress_residual_dropped new_compressor
           {| art_reverse_mapping := aaabbc_mapping;
              art_compressed_data := [7; 128]%Z |} "1" "1" []).
  - by vm_compute.
  - by vm_compute.
  - discriminate.
Defined.

(** The payload [7, 128] holds the single code bit '1', which is no code of
    the mapping of [b"aaabbc"]: the candidate "1" is left over, and
    [decompress] reports success with an empty output. *)
Lemma residual_is_accepted :
  remove_padding (payload_bits [7; 128]%Z) = Ok "1" ∧
  decode_text_loop
    {| codes := ∅; reverse_mapping := aaabbc_mapping |} "1" EmptyString []
  = Ok ("1", []) ∧
  aaabbc_mapping !! "1" = None ∧
  decompress new_compressor
    {| art_reverse_mapping := aaabbc_mapping;
       art_compressed_data := [7; 128]%Z |}
  = mkOutcome {| codes := ∅; reverse_mapping := aaabbc_mapping |}
      (Some []) (Ok (true, "Decompression successful")).
Proof. split_and!; by vm_compute. Qed.

(** C7: compressing an empty buffer returns [(False, "File is empty")],
    writes no artifact and leaves the compressor as it was. *)
Theorem compress_empty_input self :
  compress self [] = mkOutcome self None (Ok (false, "File is empty")).
Proof. reflexivity. Qed.

(** C8: for every non-empty input, the codes that [compress] assigns to two
    distinct symbols of the input are such that the first is not a prefix
    of the second, whatever the compressor held before. *)
Theorem compress_codes_prefix_free self (text : list Z) (s1 s2 : Z) :
  text ≠ [] → s1 ∈ text → s2 ∈ text → s1 ≠ s2 →
  ∃ c1 c2,
    codes (out_self (compress self text)) !! s1 = Some c1 ∧
    codes (out_self (compress self text)) !! s2 = Some c2 ∧
    ¬ str_prefix c1 c2.
Proof.
  intros Hne H1 H2 Hs.
  destruct (compress_spec self text Hne)
    as (heap & root & enc & b & _ & _ & Hnd & Hin & _ & _ & _ & Hc).
  rewrite Hc. cbn [out_self].
  apply Hin in H1, H2.
  destruct (elem_of_leaves_paths _ _ H1) as [w1 Hw1].
  destruct (elem_of_leaves_paths _ _ H2) as [w2 Hw2].
  exists w1, w2.
  rewrite (build_codes_node_in root EmptyString self s1 w1) by done.
  rewrite (build_codes_node_in root EmptyString self s2 w2) by done.
  split; [done|]. split; [done|]. by eapply paths_prefix_free.
Qed.

Lemma compress_codes_prefix_free_witness :
  aaabbc ≠ [] ∧ 97%Z ∈ aaabbc ∧ 99%Z ∈ aaabbc ∧ 97%Z ≠ 99%Z ∧
  ∃ c1 c2,
    codes (out_self (compress new_compressor aaabbc)) !! 97%Z = Some c1 ∧
    codes (out_self (compress new_compressor aaabbc)) !! 99%Z = Some c2 ∧
    ¬ str_prefix c1 c2.
Proof.
  assert (aaabbc ≠ []) as Hne by (by vm_compute).
  assert (97%Z ∈ aaabbc) as H1
    by (refine (bool_decide_unpack (97%Z ∈ aaabbc) _); by vm_compute).
  assert (99%Z ∈ aaabbc) as H2
    by (refine (bool_decide_unpack (99%Z ∈ aaabbc) _); by vm_compute).
  assert (97%Z ≠ 99%Z) as Hs by lia.
  split_and!; [exact Hne|exact H1|exact H2|exact Hs|].
  exact (compress_codes_prefix_free new_compressor aaabbc 97 99 Hne H1 H2 Hs).
Defined.

(** C9: removing the padding of a padded text gives the text back, for
    every text. *)
Theorem remove_padding_pad_encoded_text (encoded_text : string) :
  remove_padding (pad_encoded_text encoded_text) = Ok encoded_text.
Proof. apply remove_padding_pad. Qed.

(** C10, as the code has it: for a text whose first eight characters read
    as the count [p], [remove_padding] drops these eight characters and,
    when [p > 0], the last [p] characters of the rest (all of them when
    there are fewer); when [p = 0] it returns the empty string, since
    [s[:-0]] is [s[:0]], and not the rest unchanged. *)
Theorem remove_padding_by_header hdr rest (p : Z) :
  String.length hdr = 8 → int2 hdr = Ok p →
  ((0 < p)%Z →
   remove_padding (hdr +:+ rest)
   = Ok (substring 0 (String.length rest - Z.to_nat p) rest)) ∧
  (p = 0%Z → remove_padding (hdr +:+ rest) = Ok EmptyString).
Proof.
  intros Hlen Hint. rewrite (remove_padding_header _ _ p Hlen Hint). split.
  - intros Hp. by rewrite slice_drop_last.
  - intros ->. by rewrite slice_drop_zero.
Qed.

Lemma remove_padding_by_header_witness :
  (String.length "00000011" = 8 ∧ int2 "00000011" = Ok 3%Z ∧
   remove_padding ("00000011" +:+ "10101000") = Ok "10101") ∧
  (String.length "00000000" = 8 ∧ int2 "00000000" = Ok 0%Z ∧
   remove_padding ("00000000" +:+ "10101010") = Ok EmptyString).
Proof.
  assert (String.length "00000011" = 8) as Hlen3 by reflexivity.
  assert (int2 "00000011" = Ok 3%Z) as Hint3 by reflexivity.
  assert (String.length "00000000" = 8) as Hlen0 by reflexivity.
  assert (int2 "00000000" = Ok 0%Z) as Hint0 by reflexivity.
  split.
  - split; [exact Hlen3|]. split; [exact Hint3|].
    exact (proj1 (remove_padding_by_header "00000011" "10101000" 3
                    Hlen3 Hint3) eq_refl).
  - split; [exact Hlen0|]. split; [exact Hint0|].
    exact (proj2 (remove_padding_by_header "00000000" "10101010" 0
                    Hlen0 Hint0) eq_refl).
Defined.

(** The text ['00000000' + '10101010'] has a header that reads 0:
    [remove_padding] returns the empty string, not ['10101010']. *)
Lemma zero_header_drops_everything :
  int2 (slice "0000000010101010" None (Some 8%Z)) = Ok 0%Z ∧
  slice "0000000010101010" (Some 8%Z) None = "10101010" ∧
  remove_padding "0000000010101010" = Ok EmptyString ∧
  remove_padding "0000000010101010" ≠ Ok "10101010".
Proof. split_and!; by vm_compute. Qed.

(** * Further lemmas *)

(** ** The order of the heap *)

Lemma parent_children k i :
  0 < k → parent k = i ↔ k = 2 * i + 1 ∨ k = 2 * i + 2.
Proof.
  intros Hk. unfold parent.
  pose proof (Nat.div2_odd (k - 1)) as Hodd.
  destruct (Nat.odd (k - 1)); cbn [Nat.b2n] in Hodd; lia.
Qed.

Lemma parent_lt k : 0 < k → parent k < k.
Proof.
  intros Hk. pose proof (proj1 (parent_children k (parent k) Hk) eq_refl). lia.
Qed.

Lemma getitem_Ok {A} (l : list A) i x : getitem l i = Ok x → l !! i = Some x.
Proof. unfold getitem. destruct (l !! i); by intros [= ->]. Qed.

Lemma node_lt_true a b : node_lt a b = true ↔ (freq a < freq b)%Z.
Proof. unfold node_lt. by rewrite bool_decide_eq_true. Qed.

Lemma node_lt_false a b : node_lt a b = false ↔ (freq b ≤ freq a)%Z.
Proof. unfold node_lt. rewrite bool_decide_eq_false. lia. Qed.

Lemma hole_ordered_insert heap i x :
  hole_ordered heap i → hole_ordered (<[i:=x]> heap) i.
Proof.
  intros [Ha Hb]. split.
  - intros k y p Hk Hki Hpi. rewrite !list_lookup_insert_ne by done. eauto.
  - intros k y g Hk Hpk Hi. pose proof (parent_lt i Hi).
    pose proof (parent_lt k Hk).
    rewrite !list_lookup_insert_ne by lia. eauto.
Qed.

(** Filling the hole with an item that fits gives an ordered heap. *)
Lemma hole_ordered_fill heap i item :
  hole_ordered heap i → below_children heap i item →
  (0 < i → ∀ p, heap !! parent i = Some p → (freq p ≤ freq item)%Z) →
  i < length heap →
  heap_ordered (<[i:=item]> heap).
Proof.
  intros [Ha Hb] Hbelow Habove Hlen k x p Hk.
  destruct (decide (k = i)) as [->|Hki].
  - rewrite list_lookup_insert_eq by done.
    pose proof (parent_lt i Hk).
    rewrite list_lookup_insert_ne by lia. intros [= <-] Hp. eauto.
  - rewrite (list_lookup_insert_ne _ i k) by done.
    destruct (decide (parent k = i)) as [Hpi|Hpi].
    + rewrite Hpi, list_lookup_insert_eq by done.
      intros Hx [= <-]. eapply Hbelow; eauto.
    + rewrite list_lookup_insert_ne by done. eauto.
Qed.

Lemma siftdown_loop_ordered newitem heap pos :
  pos < length heap →
  hole_ordered heap pos → below_children heap pos newitem →
  ∃ heap' pos',
    heapq.siftdown_loop 0 newitem heap pos = Ok (heap', pos') ∧
    pos' < length heap' ∧
    heap_ordered (<[pos':=newitem]> heap').
Proof.
  remember 0 as startpos eqn:Hstart. revert Hstart.
  funelim (heapq.siftdown_loop startpos newitem heap pos);
    intros -> Hlt Hhole Hbelow.
  all: try (assert (parent pos < pos) as Hdec by (apply parent_lt; lia)).
  all: fold (parent pos) in *.
  - (* the top is reached *)
    eexists _, _. split; [done|]. split; [done|].
    apply hole_ordered_fill; [done|done|lia|done].
  - exfalso.
    destruct (heapq.getitem_lt heap (parent pos)) as (? & _ & ?);
      [lia|congruence].
  - (* the parent is not more frequent *)
    eexists _, _. split; [done|]. split; [done|].
    apply node_lt_false in Heq.
    match goal with
    | Hg : getitem heap _ = Ok ?q |- _ =>
        apply getitem_Ok in Hg; rename q into p, Hg into Hp
    end.
    apply hole_ordered_fill; [done|done| |done].
    intros _ p' Hp'. by simplify_eq.
  - (* the parent moves down *)
    rewrite heapq.setitem_lt in Heq by done. simplify_eq.
    apply node_lt_true in Heq0.
    match goal with
    | Hg : getitem heap _ = Ok ?q |- _ =>
        apply getitem_Ok in Hg; rename q into p, Hg into Hp
    end.
    destruct Hhole as [Ha Hb].
    apply H; [done|by rewrite length_insert; lia| |].
    + split.
      * intros k x g Hk Hkp Hpk.
        destruct (decide (k = pos)) as [->|Hkpos]; [done|].
        rewrite (list_lookup_insert_ne _ pos k) by done.
        destruct (decide (parent k = pos)) as [Hpp|Hpp].
        -- rewrite Hpp, list_lookup_insert_eq by done.
           intros Hx [= <-]. eapply (Hb k); eauto; lia.
        -- rewrite list_lookup_insert_ne by done. eauto.
      * intros k x g Hk Hkp Hpp.
        pose proof (parent_lt (parent pos) Hpp).
        rewrite (list_lookup_insert_ne _ pos (parent (parent pos))) by lia.
        destruct (decide (k = pos)) as [->|Hkpos].
        -- rewrite list_lookup_insert_eq by done. intros [= <-] Hg.
           eapply (Ha (parent pos)); eauto; lia.
        -- rewrite list_lookup_insert_ne by done. intros Hx Hg.
           assert (freq g ≤ freq p)%Z
             by (eapply (Ha (parent pos)); eauto; lia).
           assert (freq p ≤ freq x)%Z
             by (eapply (Ha k); rewrite ?Hkp; eauto; lia).
           lia.
    + intros k x Hk Hkp.
      destruct (decide (k = pos)) as [->|Hkpos].
      * rewrite list_lookup_insert_eq by done. intros [= <-]. lia.
      * rewrite list_lookup_insert_ne by done. intros Hx.
        assert (freq p ≤ freq x)%Z
          by (eapply (Ha k); rewrite ?Hkp; eauto; lia).
        lia.
  - exfalso. rewrite heapq.setitem_lt in Heq by done. done.
Qed.

Lemma smaller_child_least heap c0 c :
  heapq.smaller_child heap c0 = Ok c → c0 < length heap →
  (c = c0 ∨ c = c0 + 1) ∧ c < length heap ∧
  ∀ x k y, heap !! c = Some x → k = c0 ∨ k = c0 + 1 →
           heap !! k = Some y → (freq x ≤ freq y)%Z.
Proof.
  unfold heapq.smaller_child. intros Hc Hlt. case_decide as Hr.
  - destruct (heapq.getitem_lt heap c0 Hlt) as (l & Hl & Hgl).
    destruct (heapq.getitem_lt heap (c0 + 1) Hr) as (r & Hr' & Hgr).
    rewrite Hgl, Hgr in Hc. cbn [mbind result_bind] in Hc.
    destruct (node_lt l r) eqn:Hlt'; simplify_eq/=.
    + apply node_lt_true in Hlt'. split; [by left|]. split; [done|].
      intros x k y Hx [-> | ->] Hy; simplify_eq; lia.
    + apply node_lt_false in Hlt'. split; [by right|]. split; [done|].
      intros x k y Hx [-> | ->] Hy; simplify_eq; lia.
  - simplify_eq. split; [by left|]. split; [done|].
    intros x k y Hx [-> | ->] Hy; simplify_eq; [lia|].
    apply lookup_lt_Some in Hy. lia.
Qed.

Lemma siftup_loop_ordered heap pos :
  pos < length heap → hole_ordered heap pos →
  ∃ heap' pos',
    heapq.siftup_loop heap pos = Ok (heap', pos') ∧
    pos' < length heap' ∧ ¬ 2 * pos' + 1 < length heap' ∧
    hole_ordered heap' pos'.
Proof.
  funelim (heapq.siftup_loop heap pos); intros Hlt Hhole;
    repeat match goal with
      | H : sigmaI _ _ _ = _ |- _ => clear H
      end.
  - by eexists _, _.
  - exfalso.
    destruct (heapq.smaller_child_spec heap (2 * pos + 1)) as (? & ? & _);
      [lia|congruence].
  - exfalso.
    pose proof (heapq.smaller_child_bounds _ _ _ Hc ltac:(lia)) as Hb.
    destruct (heapq.getitem_lt heap childpos) as (? & _ & ?); [lia|congruence].
  - destruct (smaller_child_least _ _ _ Hc ltac:(lia)) as (Hcases & Hclt & Hleast).
    rewrite heapq.setitem_lt in Hs by done. simplify_eq.
    match goal with
    | Hg : getitem heap _ = Ok ?q |- _ =>
        apply getitem_Ok in Hg; rename q into c, Hg into Hchild
    end.
    assert (parent childpos = pos) as Hpc
      by (apply parent_children; lia).
    destruct Hhole as [Ha Hb].
    apply H; [by rewrite length_insert|].
    split.
    + intros k x g Hk Hkc Hpk.
      destruct (decide (k = pos)) as [->|Hkpos].
      * rewrite list_lookup_insert_eq by done.
        pose proof (parent_lt pos Hk).
        rewrite list_lookup_insert_ne by lia. intros [= <-] Hg.
        eapply (Hb childpos); eauto; lia.
      * rewrite (list_lookup_insert_ne _ pos k) by done.
        destruct (decide (parent k = pos)) as [Hpp|Hpp].
        -- rewrite Hpp, list_lookup_insert_eq by done.
           intros Hx [= <-]. eapply Hleast; [done| |done].
           apply parent_children in Hpp; lia.
        -- rewrite list_lookup_insert_ne by done. eauto.
    + intros k x g Hk Hkc _.
      rewrite Hpc, list_lookup_insert_eq by done.
      pose proof (parent_lt k Hk).
      rewrite list_lookup_insert_ne by lia. intros Hx [= <-].
      eapply (Ha k); rewrite ?Hkc; eauto; lia.
  - exfalso. rewrite heapq.setitem_lt in e1 by done. done.
Qed.

Lemma siftup_ordered heap :
  heap ≠ [] → hole_ordered heap 0 →
  ∃ heap', heapq.siftup heap 0 = Ok heap' ∧ heap_ordered heap'.
Proof.
  intros Hne Hhole. unfold heapq.siftup.
  assert (0 < length heap) as Hlt by (destruct heap; simpl; [done|lia]).
  destruct (heapq.getitem_lt heap 0 Hlt) as (newitem & Hnew & ->).
  cbn [mbind result_bind].
  destruct (siftup_loop_ordered heap 0 Hlt Hhole)
    as (heap' & pos' & -> & Hlen & Hleaf & Hhole').
  cbn [mbind result_bind].
  rewrite heapq.setitem_lt by done. cbn [mbind result_bind].
  unfold heapq.siftdown.
  rewrite (heapq.getitem_lookup _ _ newitem)
    by (by rewrite list_lookup_insert_eq).
  cbn [mbind result_bind].
  destruct (siftdown_loop_ordered newitem (<[pos':=newitem]> heap') pos')
    as (h3 & p3 & -> & Hlen3 & Hord).
  { by rewrite length_insert. }
  { by apply hole_ordered_insert. }
  { intros k x Hk Hpk Hx. apply lookup_lt_Some in Hx.
    rewrite length_insert in Hx. apply parent_children in Hpk; lia. }
  cbn [mbind result_bind]. rewrite heapq.setitem_lt by done.
  by eexists.
Qed.

Lemma heap_ordered_app heap item :
  heap_ordered heap → hole_ordered (heap ++ [item]) (length heap).
Proof.
  intros Hord. split.
  - intros k x p Hk Hkl Hpl Hx Hp.
    pose proof (parent_lt k Hk).
    assert (k < length heap).
    { apply lookup_lt_Some in Hx. rewrite length_app in Hx. simpl in Hx. lia. }
    rewrite lookup_app_l in Hx, Hp by lia. eauto.
  - intros k x g Hk Hpk _ Hx.
    apply lookup_lt_Some in Hx. rewrite length_app in Hx. simpl in Hx.
    pose proof (parent_lt k Hk). lia.
Qed.

(** [heappush] keeps the order of the heap. *)
Lemma heappush_ordered heap item :
  heap_ordered heap →
  ∃ heap', heapq.heappush heap item = Ok heap' ∧ heap_ordered heap'.
Proof.
  intros Hord. unfold heapq.heappush, heapq.siftdown.
  rewrite length_app. simpl.
  replace (length heap + 1 - 1) with (length heap) by lia.
  rewrite (heapq.getitem_lookup _ _ item)
    by (by rewrite lookup_app_r, Nat.sub_diag).
  cbn [mbind result_bind].
  destruct (siftdown_loop_ordered item (heap ++ [item]) (length heap))
    as (h & p & -> & Hlen & Hord').
  { rewrite length_app. simpl. lia. }
  { by apply heap_ordered_app. }
  { intros k x Hk Hpk Hx. apply lookup_lt_Some in Hx.
    rewrite length_app in Hx. simpl in Hx.
    pose proof (parent_lt k Hk). lia. }
  cbn [mbind result_bind]. rewrite heapq.setitem_lt by done.
  by eexists.
Qed.

(** The first node of an ordered heap is a least frequent one. *)
Lemma heap_ordered_min heap m k x :
  heap_ordered heap → heap !! 0 = Some m → heap !! k = Some x →
  (freq m ≤ freq x)%Z.
Proof.
  intros Hord Hm. revert x.
  induction (lt_wf k) as [k _ IH]. intros x Hx.
  destruct (decide (k = 0)) as [->|Hk]; [simplify_eq; lia|].
  pose proof (parent_lt k ltac:(lia)) as Hlt.
  destruct (lookup_lt_is_Some_2 heap (parent k)) as [p Hp].
  { apply lookup_lt_Some in Hx. lia. }
  assert (freq m ≤ freq p)%Z by (by eapply IH).
  assert (freq p ≤ freq x)%Z by (eapply (Hord k); eauto; lia).
  lia.
Qed.

Lemma heap_ordered_removelast heap last :
  heap_ordered (heap ++ [last]) → heap_ordered heap.
Proof.
  intros Hord k x p Hk Hx Hp.
  eapply (Hord k); [done| |].
  - by apply lookup_app_l_Some.
  - by apply lookup_app_l_Some.
Qed.

Lemma heappop_snoc r h lastelt :
  heapq.heappop ((r :: h) ++ [lastelt])
  = (heap ← heapq.siftup (lastelt :: h) 0; Ok (r, heap)).
Proof.
  unfold heapq.heappop.
  destruct (heapq.list_pop_spec ((r :: h) ++ [lastelt])) as (x & l & -> & Heq);
    [done|].
  apply app_inj_tail in Heq as [<- <-]. cbn [mbind result_bind].
  rewrite decide_True by done.
  rewrite (heapq.getitem_lookup _ 0 r) by done. cbn [mbind result_bind].
  rewrite heapq.setitem_lt by (simpl; lia). done.
Qed.

(** [heappop] takes a least frequent node out and keeps the order of the
    rest. *)
Lemma heappop_ordered heap :
  heap ≠ [] → heap_ordered heap →
  ∃ item heap',
    heapq.heappop heap = Ok (item, heap') ∧ item :: heap' ≡ₚ heap ∧
    heap_ordered heap' ∧ ∀ x, x ∈ heap' → (freq item ≤ freq x)%Z.
Proof.
  intros Hne Hord.
  destruct (heapq.heappop_spec heap Hne) as (item & heap' & Hpop & Hperm).
  exists item, heap'. split; [done|]. split; [done|].
  destruct (heapq.list_pop_spec heap Hne) as (lastelt & h & _ & ->).
  destruct h as [|r h].
  - vm_compute in Hpop. simplify_eq. split; [by intros k x p Hk Hx|].
    intros x Hx. set_solver.
  - rewrite heappop_snoc in Hpop.
    destruct (siftup_ordered (lastelt :: h)) as (h' & Hh' & Hord'); [done| |].
    { apply heap_ordered_removelast in Hord. split.
      - intros k x p Hk Hk0 Hp0.
        destruct k as [|k]; [done|].
        destruct (parent (S k)) as [|pk] eqn:Hpk; [done|].
        intros Hx Hp. eapply (Hord (S k)); [lia|exact Hx|].
        by rewrite Hpk.
      - intros k x g _ _ Hlt. lia. }
    rewrite Hh' in Hpop. cbn [mbind result_bind] in Hpop. simplify_eq.
    split; [done|].
    intros x Hx.
    assert (x ∈ (item :: h) ++ [lastelt]) as [k Hk]%list_elem_of_lookup
      by (rewrite <- Hperm; set_solver).
    by eapply (heap_ordered_min _ item k x Hord).
Qed.

#[global] Instance sum_Z_perm : Proper ((≡ₚ) ==> (=)) sum_Z.
Proof.
  intros l1 l2 Hp. unfold sum_Z.
  induction Hp; simpl; lia.
Qed.

Lemma sum_Z_app l1 l2 : sum_Z (l1 ++ l2) = (sum_Z l1 + sum_Z l2)%Z.
Proof. unfold sum_Z. induction l1; simpl; lia. Qed.

(** ** Counting in the frequency table *)

Lemma counter_get_incr k d c :
  counter_get (counter_incr k d) c
  = (counter_get d c + if decide (c = k) then 1 else 0)%Z.
Proof.
  induction d as [|[k' v] d IH]; simpl.
  - case_decide; lia.
  - destruct (decide (k = k')) as [->|Hk]; simpl.
    + repeat case_decide; lia.
    + rewrite IH. repeat case_decide; simplify_eq; lia.
Qed.

Lemma counter_get_fold (data : list Z) d c :
  counter_get (fold_left (λ d k, counter_incr k d) data d) c
  = (counter_get d c + occurrences c data)%Z.
Proof.
  revert d. unfold occurrences.
  induction data as [|k data IH]; intros d; simpl; [lia|].
  rewrite IH, counter_get_incr, filter_cons.
  repeat case_decide; simplify_eq; simpl; lia.
Qed.

Lemma counter_get_elem d c n :
  NoDup d.*1 → (c, n) ∈ d → counter_get d c = n.
Proof.
  induction d as [|[k v] d IH]; [set_solver|].
  rewrite fmap_cons, NoDup_cons. cbn [fst].
  intros [Hk Hnd] [Heq|Hin]%elem_of_cons; simpl.
  - simplify_eq. by rewrite decide_True.
  - rewrite decide_False; [by apply IH|].
    intros ->. apply Hk. apply list_elem_of_fmap. by exists (k, n).
Qed.

Lemma sum_Z_counter_incr k d :
  sum_Z (counter_incr k d).*2 = (sum_Z d.*2 + 1)%Z.
Proof.
  induction d as [|[k' v] d IH]; [done|].
  cbn [counter_incr]. case_decide; rewrite !fmap_cons; cbn [snd sum_Z foldr].
  - fold (sum_Z d.*2). lia.
  - fold (sum_Z (counter_incr k d).*2) (sum_Z d.*2). lia.
Qed.

Lemma sum_Z_counter_fold (data : list Z) d :
  sum_Z (fold_left (λ d k, counter_incr k d) data d).*2
  = (sum_Z d.*2 + Z.of_nat (length data))%Z.
Proof.
  revert d. induction data as [|k data IH]; intros d; simpl; [lia|].
  rewrite IH, sum_Z_counter_incr. lia.
Qed.

Lemma build_frequency_dict_sum (data : list Z) :
  sum_Z (build_frequency_dict data).*2 = Z.of_nat (length data).
Proof.
  unfold build_frequency_dict, Counter. rewrite sum_Z_counter_fold. simpl. lia.
Qed.

(** ** The order of the heap through [build_heap] and [build_tree] *)

Lemma build_heap_loop_ordered (items : list (Z * Z)) heap :
  heap_ordered heap →
  ∃ heap', build_heap_loop items heap = Ok heap' ∧
           heap' ≡ₚ ((λ kv, Leaf kv.1 kv.2) <$> items) ++ heap ∧
           heap_ordered heap'.
Proof.
  revert heap. induction items as [|[char f] items IH]; intros heap Hord.
  - by exists heap.
  - cbn [build_heap_loop].
    destruct (heappush_ordered heap (Leaf char f) Hord) as (h & Hh & Hord').
    destruct (heapq.heappush_spec heap (Leaf char f)) as (h' & Hh' & Hp).
    rewrite Hh in Hh'. simplify_eq.
    rewrite Hh. cbn [mbind result_bind].
    destruct (IH h' Hord') as (heap' & -> & Hp' & Hord'').
    exists heap'. split; [done|]. split; [|done].
    rewrite Hp', Hp, fmap_cons. cbn [fst snd].
    by rewrite <- Permutation_middle.
Qed.

(** One round of the loop of [build_tree] on an ordered heap: the two nodes
    it merges are the two least frequent ones, the less frequent of them
    on the left. *)
Lemma merge_step_ordered heap :
  1 < length heap → heap_ordered heap →
  ∃ node1 node2 rest heap',
    merge_step heap = Ok heap' ∧
    heap ≡ₚ node1 :: node2 :: rest ∧
    heap' ≡ₚ Internal (freq node1 + freq node2) node1 node2 :: rest ∧
    (freq node1 ≤ freq node2)%Z ∧
    (∀ x, x ∈ rest → (freq node2 ≤ freq x)%Z) ∧
    heap_ordered heap'.
Proof.
  intros Hlen Hord. unfold merge_step.
  destruct (heappop_ordered heap) as (node1 & h1 & -> & Hp1 & Hord1 & Hmin1);
    [intros ->; simpl in Hlen; lia|done|].
  cbn [mbind result_bind].
  destruct (heappop_ordered h1) as (node2 & h2 & -> & Hp2 & Hord2 & Hmin2);
    [|done|].
  { intros ->. apply Permutation_length in Hp1. simpl in Hp1. lia. }
  cbn [mbind result_bind].
  destruct (heappush_ordered h2
              (Internal (freq node1 + freq node2) node1 node2) Hord2)
    as (heap' & Hpush & Hord').
  destruct (heapq.heappush_spec h2
              (Internal (freq node1 + freq node2) node1 node2))
    as (heap'' & Hpush' & Hp3).
  rewrite Hpush in Hpush'. simplify_eq. rewrite Hpush.
  exists node1, node2, h2, heap''. split_and!; try done.
  - by rewrite <- Hp1, <- Hp2.
  - apply Hmin1. rewrite <- Hp2. set_solver.
Qed.

Lemma build_tree_loop_ordered (heap : list HuffmanNode) :
  heap ≠ [] → heap_ordered heap →
  Forall (λ n, weights_add_up n ∧ left_not_heavier n) heap →
  ∃ root, build_tree_loop heap = Ok [root] ∧
          weights_add_up root ∧ left_not_heavier root ∧
          leaf_entries root ≡ₚ heap ≫= leaf_entries.
Proof.
  funelim (build_tree_loop heap); intros Hne Hord Hwf;
    repeat match goal with
      | H : sigmaI _ _ _ = _ |- _ => clear H
      end.
  - destruct heap as [|root [|? heap]]; [done| |simpl in *; lia].
    exists root. apply Forall_singleton in Hwf as [? ?].
    split_and!; try done. simpl. by rewrite app_nil_r.
  - destruct (merge_step_ordered heap)
      as (n1 & n2 & rest & h & Hh & Hp & Hp' & Hle & _ & Hord'); [done..|].
    rewrite Hh in Hm. simplify_eq.
    rewrite Hp in Hwf.
    apply Forall_cons in Hwf as [[? ?] Hwf].
    apply Forall_cons in Hwf as [[? ?] Hwf].
    destruct H as (root & Hroot & Hw & Hl & Hentries).
    { intros ->. by apply Permutation_nil_cons in Hp'. }
    { done. }
    { rewrite Hp'. apply Forall_cons. split; [|done]. simpl. done. }
    exists root. split_and!; try done.
    rewrite Hentries, Hp', Hp. simpl. by rewrite (assoc_L (++)).
  - exfalso. destruct (merge_step_spec heap) as (? & ? & ? & ? & ? & _);
      [done|congruence].
Qed.

Lemma weights_add_up_sum node :
  weights_add_up node → freq node = sum_Z (leaf_entries node).*2.
Proof.
  induction node as [c f|f l IHl r IHr]; simpl.
  - intros _. lia.
  - intros (-> & Hl & Hr). rewrite fmap_app, sum_Z_app, <- IHl, <- IHr; done.
Qed.

Lemma leaf_entries_leaves node : (leaf_entries node).*1 = leaves node.
Proof.
  induction node as [c f|f l IHl r IHr]; simpl; [done|].
  by rewrite fmap_app, IHl, IHr.
Qed.

(** The tree of a non-empty input. *)
Lemma huffman_tree_spec (text : list Z) :
  text ≠ [] →
  ∃ heap root,
    build_heap (build_frequency_dict text) = Ok heap ∧
    build_tree heap = Ok (Some root) ∧
    heap_ordered heap ∧
    heap ≡ₚ (λ kv, Leaf kv.1 kv.2) <$> build_frequency_dict text ∧
    weights_add_up root ∧ left_not_heavier root ∧
    leaf_entries root ≡ₚ build_frequency_dict text.
Proof.
  intros Hne.
  destruct (build_heap_loop_ordered (build_frequency_dict text) [])
    as (heap & Hheap & Hp & Hord); [by intros k x p Hk Hx|].
  rewrite app_nil_r in Hp.
  destruct (build_tree_loop_ordered heap) as (root & Hroot & Hw & Hl & He).
  { intros ->. apply Permutation_nil in Hp.
    apply fmap_nil_inv in Hp.
    destruct (build_frequency_dict_keys text) as [_ Hin].
    destruct text as [|c text]; [done|].
    assert (c ∈ (build_frequency_dict (c :: text)).*1) as Hc
      by (apply Hin; set_solver).
    rewrite Hp in Hc. set_solver. }
  { done. }
  { rewrite Hp. apply Forall_fmap, Forall_forall. by intros [c f] _. }
  exists heap, root. split; [done|]. split.
  { unfold build_tree. by rewrite Hroot. }
  split_and!; try done.
  rewrite He, Hp. clear.
  induction (build_frequency_dict text) as [|[c f] d IH]; [done|].
  rewrite fmap_cons. simpl. by rewrite IH.
Qed.

(** ** Bytes and bits *)

(** The eight bits of a byte read back as the byte. *)
Lemma byte_bits_spec (v : Z) :
  (0 ≤ v < 256)%Z →
  is_bits (byte_bits v) ∧ String.length (byte_bits v) = 8 ∧
  int2 (byte_bits v) = Ok v.
Proof.
  intros Hv. destruct v as [|p|p]; [vm_compute; tauto| |lia].
  do 8 (try destruct p as [p|p|]); try lia; vm_compute; tauto.
Qed.

Lemma get_byte_array_loop_bytes s k0 n b :
  is_bits s → 8 * (k0 + n) ≤ String.length s →
  ∃ vs, get_byte_array_loop s ((λ k, 8 * k) <$> seq k0 n) b = Ok (b ++ vs) ∧
        Forall (λ v, 0 ≤ v < 256)%Z vs.
Proof.
  intros Hs. revert k0 b. induction n as [|n IH]; intros k0 b Hlen.
  - exists []. by rewrite app_nil_r.
  - cbn [seq]. rewrite fmap_cons. cbn [get_byte_array_loop].
    rewrite slice_chunk by lia.
    destruct (int2_byte (substring (8 * k0) 8 s)) as (v & -> & Hv).
    { by apply is_bits_substring. }
    { apply substring_length. lia. }
    cbn [mbind result_bind].
    unfold bytearray_append. rewrite decide_True by done.
    cbn [mbind result_bind].
    destruct (IH (S k0) (b ++ [v])) as (vs & Hvs & Hl); [lia|].
    exists (v :: vs). rewrite Hvs, <- (assoc_L (++)).
    split; [done|]. by constructor.
Qed.

Lemma get_byte_array_loop_full s k0 n b :
  is_bits s → 8 * (k0 + n) ≤ String.length s →
  ∃ vs, get_byte_array_loop s ((λ k, 8 * k) <$> seq k0 n) b = Ok (b ++ vs) ∧
        length vs = n ∧ Forall (λ v, 0 ≤ v < 256)%Z vs ∧
        payload_bits vs = substring (8 * k0) (8 * n) s.
Proof.
  intros Hs Hlen.
  destruct (get_byte_array_loop_spec s k0 n b Hs Hlen) as (vs & Hvs & Hn).
  destruct (get_byte_array_loop_bits s k0 n b Hs Hlen) as (vs1 & Hvs1 & Hbits).
  destruct (get_byte_array_loop_bytes s k0 n b Hs Hlen) as (vs2 & Hvs2 & Hb).
  rewrite Hvs in Hvs1, Hvs2.
  injection Hvs1 as ->%app_inv_head. injection Hvs2 as ->%app_inv_head.
  by exists vs2.
Qed.

Lemma get_byte_array_full s m :
  is_bits s → String.length s = 8 * m →
  ∃ b, get_byte_array s = Ok b ∧ length b = m ∧
       Forall (λ v, 0 ≤ v < 256)%Z b ∧ payload_bits b = s.
Proof.
  intros Hs Hlen. unfold get_byte_array.
  rewrite Hlen, decide_False; last first.
  { intros Hne. apply Hne. rewrite Nat.mul_comm. apply Nat.Div0.mod_mul. }
  rewrite range_step_8.
  destruct (get_byte_array_loop_full s 0 m [] Hs)
    as (vs & -> & Hm & Hbytes & Hbits); [lia|].
  exists vs. cbn [app]. split_and!; try done.
  rewrite Hbits, <- Hlen. apply substring_all.
Qed.

Lemma payload_bits_length (compressed_data : list Z) :
  Forall (λ v, 0 ≤ v < 256)%Z compressed_data →
  is_bits (payload_bits compressed_data) ∧
  String.length (payload_bits compressed_data) = 8 * length compressed_data.
Proof.
  induction 1 as [|v vs Hv _ [IHb IHl]]; [done|].
  destruct (byte_bits_spec v Hv) as (Hb & Hl & _).
  rewrite payload_bits_cons, is_bits_app, str_length_app, Hl, IHl.
  split; [done|]. simpl. lia.
Qed.

Lemma get_byte_array_loop_payload pre (vs : list Z) k0 b :
  Forall (λ v, 0 ≤ v < 256)%Z vs → String.length pre = 8 * k0 →
  get_byte_array_loop (pre +:+ payload_bits vs)
    ((λ k, 8 * k) <$> seq k0 (length vs)) b = Ok (b ++ vs).
Proof.
  intros Hvs. revert pre k0 b.
  induction Hvs as [|v vs Hv Hvs IH]; intros pre k0 b Hpre.
  - by rewrite app_nil_r.
  - destruct (byte_bits_spec v Hv) as (Hb & Hl & Hint).
    destruct (payload_bits_length vs Hvs) as [_ Hlen].
    cbn [length seq]. rewrite fmap_cons. cbn [get_byte_array_loop].
    rewrite payload_bits_cons.
    rewrite slice_chunk
      by (rewrite !str_length_app, Hpre, Hl; lia).
    assert (substring (8 * k0) 8 (pre +:+ byte_bits v +:+ payload_bits vs)
            = byte_bits v) as ->.
    { rewrite <- Hpre, <- (Nat.add_0_r (String.length pre)).
      rewrite substring_drop_app.
      etrans; [|apply (substring_take_app (byte_bits v) (payload_bits vs))].
      by rewrite Hl. }
    rewrite Hint.
    cbn [mbind result_bind]. unfold bytearray_append.
    rewrite decide_True by done. cbn [mbind result_bind].
    rewrite <- str_app_assoc, (IH (pre +:+ byte_bits v) (S k0)).
    + by rewrite <- (assoc_L (++)).
    + rewrite str_length_app, Hpre, Hl. lia.
Qed.

(** ** The tables of a new compressor *)

Lemma codes_new_compressor root c w :
  NoDup (leaves root) →
  codes (build_codes_node root EmptyString new_compressor) !! c = Some w
  ↔ (c, w) ∈ paths root.
Proof.
  intros Hnd. split.
  - intros Hc. destruct (decide (c ∈ leaves root)) as [Hin|Hin].
    + destruct (elem_of_leaves_paths _ _ Hin) as [w' Hw'].
      rewrite (build_codes_node_in root EmptyString new_compressor c w')
        in Hc by done.
      by simplify_eq.
    + rewrite build_codes_node_notin in Hc by done.
      cbn [new_compressor codes] in Hc. by rewrite lookup_empty in Hc.
  - intros Hw.
    by rewrite (build_codes_node_in root EmptyString new_compressor c w).
Qed.

Lemma reverse_new_compressor root key c :
  reverse_mapping (build_codes_node root EmptyString new_compressor) !! key
    = Some c
  ↔ (c, key) ∈ paths root.
Proof.
  split.
  - intros [(w & Hw & ->)|Hempty]%build_codes_node_reverse_inv; [done|].
    cbn [new_compressor reverse_mapping] in Hempty.
    by rewrite lookup_empty in Hempty.
  - intros Hw.
    apply (build_codes_node_reverse_in root EmptyString new_compressor c key
             Hw).
Qed.

(** ** What a used compressor adds *)

Lemma build_codes_node_reverse_union node current_code self :
  reverse_mapping (build_codes_node node current_code self)
  = reverse_mapping (build_codes_node node current_code new_compressor)
    ∪ reverse_mapping self.
Proof.
  revert current_code self.
  induction node as [c f|f l IHl r IHr]; intros current_code self.
  - cbn. by rewrite <- insert_union_l, (left_id_L ∅ (∪)).
  - cbn [build_codes_node].
    rewrite (IHr _ (build_codes_node l _ self)), (IHl _ self).
    rewrite (IHr _ (build_codes_node l _ new_compressor)).
    by rewrite (assoc_L (∪)).
Qed.

Lemma build_codes_node_codes_union node current_code self :
  codes (build_codes_node node current_code self)
  = codes (build_codes_node node current_code new_compressor) ∪ codes self.
Proof.
  revert current_code self.
  induction node as [c f|f l IHl r IHr]; intros current_code self.
  - cbn. by rewrite <- insert_union_l, (left_id_L ∅ (∪)).
  - cbn [build_codes_node].
    rewrite (IHr _ (build_codes_node l _ self)), (IHl _ self).
    rewrite (IHr _ (build_codes_node l _ new_compressor)).
    by rewrite (assoc_L (∪)).
Qed.

Lemma get_encoded_text_loop_ext self1 self2 (text : list Z) encoded_text :
  (∀ c, c ∈ text → codes self1 !! c = codes self2 !! c) →
  get_encoded_text_loop self1 text encoded_text
  = get_encoded_text_loop self2 text encoded_text.
Proof.
  revert encoded_text. induction text as [|c text IH];
    intros encoded_text Hcodes; simpl; [done|].
  rewrite (Hcodes c) by set_solver.
  destruct (codes self2 !! c); [|done]. apply IH. set_solver.
Qed.

Lemma get_encoded_text_loop_acc self (text : list Z) encoded_text :
  get_encoded_text_loop self text encoded_text
  = (e ← get_encoded_text_loop self text EmptyString;
     Ok (encoded_text +:+ e)).
Proof.
  revert encoded_text. induction text as [|c text IH]; intros encoded_text.
  - simpl. by rewrite str_app_nil_r.
  - simpl. destruct (codes self !! c) as [code|]; [|done].
    rewrite (IH (encoded_text +:+ code)), (IH (EmptyString +:+ code)).
    destruct (get_encoded_text_loop self text EmptyString); [|done].
    cbn [mbind result_bind]. by rewrite str_app_assoc.
Qed.

(** The artifact of a used compressor, from the one of a new compressor. *)
Lemma compress_used self (text : list Z) :
  text ≠ [] →
  ∃ self0 art0,
    compress new_compressor text
    = mkOutcome self0 (Some art0) (Ok (true, "Compression successful")) ∧
    art_reverse_mapping art0 = reverse_mapping self0 ∧
    compress self text
    = mkOutcome
        {| codes := codes self0 ∪ codes self;
           reverse_mapping := reverse_mapping self0 ∪ reverse_mapping self |}
        (Some {| art_reverse_mapping :=
                   art_reverse_mapping art0 ∪ reverse_mapping self;
                 art_compressed_data := art_compressed_data art0 |})
        (Ok (true, "Compression successful")).
Proof.
  intros Hne.
  destruct (compress_spec new_compressor text Hne)
    as (heap0 & root0 & enc0 & b0 & Hh0 & Hr0 & Hnd & Hin & Henc0 & _ & Hb0
        & Hc0).
  destruct (compress_spec self text Hne)
    as (heap & root & enc & b & Hh & Hr & _ & _ & Henc & _ & Hb & Hc).
  rewrite Hh0 in Hh. simplify_eq. rewrite Hr0 in Hr. simplify_eq.
  assert (enc = enc0) as ->.
  { unfold get_encoded_text in Henc, Henc0.
    rewrite (get_encoded_text_loop_ext _
               (build_codes_node root EmptyString new_compressor)) in Henc.
    - rewrite Henc0 in Henc. by simplify_eq.
    - intros c Hc'. apply Hin in Hc'.
      destruct (elem_of_leaves_paths _ _ Hc') as [w Hw].
      by rewrite !(build_codes_node_in root EmptyString _ c w). }
  rewrite Hb0 in Hb. simplify_eq.
  eexists _, _. split; [exact Hc0|]. split; [done|]. rewrite Hc.
  cbn [art_reverse_mapping art_compressed_data].
  rewrite <- build_codes_node_reverse_union.
  f_equal. rewrite <- build_codes_node_codes_union.
  by destruct (build_codes_node root EmptyString self).
Qed.

(** A compressor that holds only bytes in its reverse mapping still does
    after [compress] of a buffer of bytes; a new compressor holds none. *)
Lemma byte_values_new_compressor : byte_values (reverse_mapping new_compressor).
Proof.
  intros code char Hlookup. cbn [new_compressor reverse_mapping] in Hlookup.
  by rewrite lookup_empty in Hlookup.
Qed.

Lemma byte_values_compress self (text : list Z) :
  Forall (λ c, 0 ≤ c < 256)%Z text →
  byte_values (reverse_mapping self) →
  byte_values (reverse_mapping (out_self (compress self text))).
Proof.
  intros Hbytes Hself.
  destruct (decide (text = [])) as [->|Hne]; [done|].
  destruct (compress_spec self text Hne)
    as (heap & root & enc & b & _ & _ & _ & Hin & _ & _ & _ & ->).
  cbn [out_self].
  intros code char [Hl|Hs]%build_codes_node_reverse; [|by eapply Hself].
  rewrite Forall_forall in Hbytes. apply Hbytes, Hin, Hl.
Qed.

(** ** The loop of [decode_text] *)

Lemma decode_text_loop_error self encoded_text current_code decoded_bytes e :
  decode_text_loop self encoded_text current_code decoded_bytes = Raise e →
  e = ValueError "byte must be in range(0, 256)" ∧
  ∃ code char, reverse_mapping self !! code = Some char ∧
               ¬ (0 ≤ char < 256)%Z.
Proof.
  revert current_code decoded_bytes.
  induction encoded_text as [|bit encoded_text IH];
    intros current_code decoded_bytes; [done|].
  cbn [decode_text_loop].
  destruct (reverse_mapping self !! (current_code +:+ String bit EmptyString))
    as [char|] eqn:Hchar; [|apply IH].
  unfold bytearray_append. case_decide as Hbyte; cbn [mbind result_bind].
  - apply IH.
  - intros [= <-]. split; [done|]. eauto.
Qed.

Lemma decode_text_loop_output self encoded_text current_code decoded_bytes
    current_code' decoded_bytes' :
  decode_text_loop self encoded_text current_code decoded_bytes
    = Ok (current_code', decoded_bytes') →
  ∃ new,
    decoded_bytes' = decoded_bytes ++ new ∧
    length new ≤ String.length encoded_text ∧
    Forall (λ b, (0 ≤ b < 256)%Z ∧
                 ∃ code, reverse_mapping self !! code = Some b) new.
Proof.
  revert current_code decoded_bytes.
  induction encoded_text as [|bit encoded_text IH];
    intros current_code decoded_bytes.
  - intros [= <- <-]. exists []. by rewrite app_nil_r.
  - cbn [decode_text_loop].
    destruct (reverse_mapping self
                !! (current_code +:+ String bit EmptyString))
      as [char|] eqn:Hchar.
    + unfold bytearray_append. case_decide as Hbyte; cbn [mbind result_bind];
        [|done].
      intros (new & -> & Hlen & Hall)%IH.
      exists (char :: new). rewrite <- (assoc_L (++)).
      split; [done|]. split; [simpl; lia|].
      constructor; [|done]. eauto.
    + intros (new & -> & Hlen & Hall)%IH.
      exists new. split; [done|]. split; [simpl; lia|done].
Qed.

(** ** Suffixes of file names *)

Lemma endswith_app s suffix : endswith (s +:+ suffix) suffix = true.
Proof.
  unfold endswith. rewrite str_length_app.
  apply andb_true_intro. split; [apply Nat.leb_le; lia|].
  apply String.eqb_eq.
  replace (String.length s + String.length suffix - String.length suffix)
    with (String.length s + 0) by lia.
  rewrite substring_drop_app. apply substring_all.
Qed.

Lemma slice_drop_last_app s suffix :
  suffix ≠ EmptyString →
  slice (s +:+ suffix) None (Some (- Z.of_nat (String.length suffix))%Z) = s.
Proof.
  intros Hne. rewrite slice_drop_last.
  - rewrite str_length_app, Nat2Z.id.
    replace (String.length s + String.length suffix - String.length suffix)
      with (String.length s) by lia.
    apply substring_take_app.
  - destruct suffix; [done|]. simpl. lia.
Qed.

(** * Further properties of the source functions *)

(** ** The frequency table *)

(** [build_frequency_dict] has one entry for every distinct byte of the
    data, and the count of the entry is the number of occurrences of the
    byte. *)
Theorem build_frequency_dict_counts (data : list Z) :
  NoDup (build_frequency_dict data).*1 ∧
  ∀ c n, (c, n) ∈ build_frequency_dict data
         ↔ c ∈ data ∧ n = occurrences c data.
Proof.
  destruct (build_frequency_dict_keys data) as [Hnd Hin].
  split; [done|]. intros c n.
  assert (counter_get (build_frequency_dict data) c = occurrences c data)
    as Hget.
  { unfold build_frequency_dict, Counter. rewrite counter_get_fold. simpl. lia. }
  split.
  - intros Hcn. split.
    + apply Hin, list_elem_of_fmap. by exists (c, n).
    + by rewrite <- Hget, (counter_get_elem _ c n).
  - intros [Hc ->]. apply Hin in Hc.
    apply list_elem_of_fmap in Hc as ([c' n'] & -> & Hcn). cbn [fst] in *.
    by rewrite <- Hget, (counter_get_elem _ c' n').
Qed.

(** The counts of the frequency table add up to the length of the data. *)
Theorem build_frequency_dict_total (data : list Z) :
  sum_Z (build_frequency_dict data).*2 = Z.of_nat (length data).
Proof. apply build_frequency_dict_sum. Qed.

(** ** The heap and the tree *)

(** [build_heap] never raises.  The heap holds one leaf for every entry of
    the frequency table, no node of it is less frequent than its parent,
    and its first node is a least frequent one. *)
Theorem build_heap_is_heap (frequency : list (Z * Z)) :
  ∃ heap,
    build_heap frequency = Ok heap ∧
    heap ≡ₚ (λ kv, Leaf kv.1 kv.2) <$> frequency ∧
    heap_ordered heap ∧
    ∀ m x, heap !! 0 = Some m → x ∈ heap → (freq m ≤ freq x)%Z.
Proof.
  destruct (build_heap_loop_ordered frequency [])
    as (heap & Hheap & Hp & Hord); [by intros k x p Hk Hx|].
  rewrite app_nil_r in Hp. exists heap. split_and!; try done.
  intros m x Hm [k Hk]%list_elem_of_lookup. by eapply heap_ordered_min.
Qed.

(** One round of the loop of [build_tree], on an ordered heap of two nodes
    or more: the two nodes taken out are the two least frequent ones, the
    first not more frequent than the second; they are replaced by their
    merge, whose [freq] is the sum, and the heap stays ordered. *)
Theorem build_tree_round_merges_least (heap : list HuffmanNode) :
  1 < length heap → heap_ordered heap →
  ∃ node1 node2 rest heap',
    merge_step heap = Ok heap' ∧
    heap ≡ₚ node1 :: node2 :: rest ∧
    heap' ≡ₚ Internal (freq node1 + freq node2) node1 node2 :: rest ∧
    (freq node1 ≤ freq node2)%Z ∧
    (∀ x, x ∈ rest → (freq node2 ≤ freq x)%Z) ∧
    heap_ordered heap'.
Proof. apply merge_step_ordered. Qed.

Lemma heap_ordered_aaabbc : heap_ordered [Leaf 99 1; Leaf 97 3; Leaf 98 2].
Proof.
  intros k x p Hk Hx Hp.
  destruct k as [|[|[|k]]]; [lia| | |done]; vm_compute in Hp;
    simplify_eq/=; lia.
Qed.

Lemma build_tree_round_merges_least_witness :
  1 < length [Leaf 99 1; Leaf 97 3; Leaf 98 2] ∧
  heap_ordered [Leaf 99 1; Leaf 97 3; Leaf 98 2] ∧
  ∃ node1 node2 rest heap',
    merge_step [Leaf 99 1; Leaf 97 3; Leaf 98 2] = Ok heap' ∧
    [Leaf 99 1; Leaf 97 3; Leaf 98 2] ≡ₚ node1 :: node2 :: rest ∧
    heap' ≡ₚ Internal (freq node1 + freq node2) node1 node2 :: rest ∧
    (freq node1 ≤ freq node2)%Z ∧
    (∀ x, x ∈ rest → (freq node2 ≤ freq x)%Z) ∧
    heap_ordered heap'.
Proof.
  assert (1 < length [Leaf 99 1; Leaf 97 3; Leaf 98 2]) as Hlen
    by (simpl; lia).
  split; [exact Hlen|]. split; [exact heap_ordered_aaabbc|].
  exact (build_tree_round_merges_least _ Hlen heap_ordered_aaabbc).
Defined.

(** The tree of a non-empty input has one leaf for every distinct byte,
    with its number of occurrences as [freq]; the [freq] of every merged
    node is the sum of its children's, and the [freq] of the root is the
    length of the input. *)
Theorem huffman_tree_counts (text : list Z) :
  text ≠ [] →
  ∃ heap root,
    build_heap (build_frequency_dict text) = Ok heap ∧
    build_tree heap = Ok (Some root) ∧
    leaf_entries root ≡ₚ build_frequency_dict text ∧
    weights_add_up root ∧
    freq root = Z.of_nat (length text).
Proof.
  intros Hne.
  destruct (huffman_tree_spec text Hne)
    as (heap & root & Hh & Hr & _ & _ & Hw & _ & He).
  exists heap, root. split_and!; try done.
  by rewrite (weights_add_up_sum root Hw), He, build_frequency_dict_sum.
Qed.

Lemma huffman_tree_counts_witness :
  aaabbc ≠ [] ∧
  ∃ heap root,
    build_heap (build_frequency_dict aaabbc) = Ok heap ∧
    build_tree heap = Ok (Some root) ∧
    leaf_entries root ≡ₚ build_frequency_dict aaabbc ∧
    weights_add_up root ∧
    freq root = Z.of_nat (length aaabbc).
Proof.
  assert (aaabbc ≠ []) as Hne by (by vm_compute).
  split; [exact Hne|]. exact (huffman_tree_counts aaabbc Hne).
Defined.

(** In the tree of a non-empty input, the left child of every merged node
    is not more frequent than the right child. *)
Theorem huffman_tree_left_not_heavier (text : list Z) :
  text ≠ [] →
  ∃ heap root,
    build_heap (build_frequency_dict text) = Ok heap ∧
    build_tree heap = Ok (Some root) ∧
    left_not_heavier root.
Proof.
  intros Hne.
  destruct (huffman_tree_spec text Hne)
    as (heap & root & Hh & Hr & _ & _ & _ & Hl & _).
  by exists heap, root.
Qed.

Lemma huffman_tree_left_not_heavier_witness :
  aaabbc ≠ [] ∧
  ∃ heap root,
    build_heap (build_frequency_dict aaabbc) = Ok heap ∧
    build_tree heap = Ok (Some root) ∧
    left_not_heavier root.
Proof.
  assert (aaabbc ≠ []) as Hne by (by vm_compute).
  split; [exact Hne|]. exact (huffman_tree_left_not_heavier aaabbc Hne).
Defined.

(** [build_tree] never raises, whatever the list is, and returns [None]
    exactly for the empty list. *)
Theorem build_tree_none_iff_empty (heap : list HuffmanNode) :
  ∃ root, build_tree heap = Ok root ∧ (root = None ↔ heap = []).
Proof.
  destruct heap as [|node heap].
  - exists None. split; [by vm_compute|done].
  - destruct (build_tree_loop_spec (node :: heap)) as (root & Hroot & _);
      [done|].
    exists (Some root). unfold build_tree. rewrite Hroot. by split.
Qed.

(** ** The code tables *)

(** After [compress] of a non-empty input on a new compressor, [codes] and
    [reverse_mapping] are inverse of one another. *)
Theorem compress_tables_inverse (text : list Z) (c : Z) (w : string) :
  text ≠ [] →
  codes (out_self (compress new_compressor text)) !! c = Some w
  ↔ reverse_mapping (out_self (compress new_compressor text)) !! w = Some c.
Proof.
  intros Hne.
  destruct (compress_spec new_compressor text Hne)
    as (heap & root & enc & b & _ & _ & Hnd & _ & _ & _ & _ & Hc).
  rewrite Hc. cbn [out_self].
  by rewrite codes_new_compressor, reverse_new_compressor.
Qed.

Lemma compress_tables_inverse_witness :
  aaabbc ≠ [] ∧
  (codes (out_self (compress new_compressor aaabbc)) !! 99%Z = Some "10"
   ↔ reverse_mapping (out_self (compress new_compressor aaabbc)) !! "10"
     = Some 99%Z).
Proof.
  assert (aaabbc ≠ []) as Hne by (by vm_compute).
  split; [exact Hne|]. exact (compress_tables_inverse aaabbc 99 "10" Hne).
Defined.

(** After [compress] of a non-empty input on a new compressor, the bytes
    that have a code are the bytes of the input, and every code is a string
    of '0' and '1'. *)
Theorem compress_codes_domain (text : list Z) (c : Z) :
  text ≠ [] →
  (is_Some (codes (out_self (compress new_compressor text)) !! c) ↔ c ∈ text) ∧
  ∀ w, codes (out_self (compress new_compressor text)) !! c = Some w →
       is_bits w.
Proof.
  intros Hne.
  destruct (compress_spec new_compressor text Hne)
    as (heap & root & enc & b & _ & _ & Hnd & Hin & _ & _ & _ & Hc).
  rewrite Hc. cbn [out_self]. split.
  - rewrite <- Hin. split.
    + intros [w Hw]. apply codes_new_compressor in Hw; [|done].
      by eapply elem_of_paths_leaves.
    + intros [w Hw]%elem_of_leaves_paths. exists w.
      by apply codes_new_compressor.
  - intros w Hw%codes_new_compressor; [|done]. by eapply paths_is_bits.
Qed.

Lemma compress_codes_domain_witness :
  aaabbc ≠ [] ∧
  (is_Some (codes (out_self (compress new_compressor aaabbc)) !! 98%Z)
   ↔ 98%Z ∈ aaabbc) ∧
  ∀ w, codes (out_self (compress new_compressor aaabbc)) !! 98%Z = Some w →
       is_bits w.
Proof.
  assert (aaabbc ≠ []) as Hne by (by vm_compute).
  split; [exact Hne|]. exact (compress_codes_domain aaabbc 98 Hne).
Defined.

(** ** [compress] *)

(** [compress] succeeds on every non-empty input, whatever the compressor
    held before: no step raises and [get_byte_array] does not exit.  The
    payload has one byte for the header and one for every eight bits of the
    padded text, each in [0, 256), and its bits are the padded text. *)
Theorem compress_succeeds self (text : list Z) :
  text ≠ [] →
  ∃ art encoded_text,
    compress self text
    = mkOutcome (out_self (compress self text)) (Some art)
        (Ok (true, "Compression successful")) ∧
    get_encoded_text (out_self (compress self text)) text = Ok encoded_text ∧
    length (art_compressed_data art) = String.length encoded_text / 8 + 2 ∧
    Forall (λ v, 0 ≤ v < 256)%Z (art_compressed_data art) ∧
    payload_bits (art_compressed_data art) = pad_encoded_text encoded_text.
Proof.
  intros Hne.
  destruct (compress_spec self text Hne)
    as (heap & root & enc & b & _ & _ & _ & _ & Henc & Hbits & Hb & Hc).
  destruct (pad_encoded_text_bits enc Hbits) as [Hpbits Hplen].
  destruct (get_byte_array_full _ _ Hpbits Hplen)
    as (bs & Hbs & Hlen & Hbytes & Hpayload).
  rewrite Hb in Hbs. simplify_eq.
  rewrite Hc. cbn [out_self].
  eexists _, enc. split; [done|]. by split_and!.
Qed.

Lemma compress_succeeds_witness :
  aaabbc ≠ [] ∧
  ∃ art encoded_text,
    compress new_compressor aaabbc
    = mkOutcome (out_self (compress new_compressor aaabbc)) (Some art)
        (Ok (true, "Compression successful")) ∧
    get_encoded_text (out_self (compress new_compressor aaabbc)) aaabbc
    = Ok encoded_text ∧
    length (art_compressed_data art) = String.length encoded_text / 8 + 2 ∧
    Forall (λ v, 0 ≤ v < 256)%Z (art_compressed_data art) ∧
    payload_bits (art_compressed_data art) = pad_encoded_text encoded_text.
Proof.
  assert (aaabbc ≠ []) as Hne by (by vm_compute).
  split; [exact Hne|]. exact (compress_succeeds new_compressor aaabbc Hne).
Defined.

(** [compress] on a used compressor adds to the tables and never removes
    from them: the tables after the call, and the reverse mapping stored in
    the artifact, are the ones of a new compressor for the same input
    joined with what the compressor held, the new entries winning; the
    payload is the one of a new compressor. *)
Theorem compress_on_used_compressor self (text : list Z) :
  text ≠ [] →
  ∃ self0 art0,
    compress new_compressor text
    = mkOutcome self0 (Some art0) (Ok (true, "Compression successful")) ∧
    art_reverse_mapping art0 = reverse_mapping self0 ∧
    compress self text
    = mkOutcome
        {| codes := codes self0 ∪ codes self;
           reverse_mapping := reverse_mapping self0 ∪ reverse_mapping self |}
        (Some {| art_reverse_mapping :=
                   art_reverse_mapping art0 ∪ reverse_mapping self;
                 art_compressed_data := art_compressed_data art0 |})
        (Ok (true, "Compression successful")).
Proof. apply compress_used. Qed.

Lemma compress_on_used_compressor_witness :
  [1; 2; 3]%Z ≠ [] ∧
  ∃ self0 art0,
    compress new_compressor [1; 2; 3]%Z
    = mkOutcome self0 (Some art0) (Ok (true, "Compression successful")) ∧
    art_reverse_mapping art0 = reverse_mapping self0 ∧
    compress (out_self (compress new_compressor [4; 5]%Z)) [1; 2; 3]%Z
    = mkOutcome
        {| codes :=
             codes self0 ∪ codes (out_self (compress new_compressor [4; 5]%Z));
           reverse_mapping :=
             reverse_mapping self0
             ∪ reverse_mapping (out_self (compress new_compressor [4; 5]%Z)) |}
        (Some {| art_reverse_mapping :=
                   art_reverse_mapping art0
                   ∪ reverse_mapping
                       (out_self (compress new_compressor [4; 5]%Z));
                 art_compressed_data := art_compressed_data art0 |})
        (Ok (true, "Compression successful")).
Proof.
  assert ([1; 2; 3]%Z ≠ []) as Hne by done.
  split; [exact Hne|].
  exact (compress_on_used_compressor
           (out_self (compress new_compressor [4; 5]%Z)) [1; 2; 3]%Z Hne).
Defined.

(** Compressing the same input a second time on the same compressor writes
    the same artifact as the first time. *)
Theorem compress_again_same_artifact self (text : list Z) :
  out_file (compress (out_self (compress self text)) text)
  = out_file (compress self text).
Proof.
  destruct (decide (text = [])) as [->|Hne]; [done|].
  destruct (compress_used self text Hne) as (self0 & art0 & H0 & Hart & ->).
  cbn [out_self out_file].
  destruct (compress_used
              {| codes := codes self0 ∪ codes self;
                 reverse_mapping :=
                   reverse_mapping self0 ∪ reverse_mapping self |}
              text Hne) as (self1 & art1 & H1 & _ & ->).
  rewrite H0 in H1. simplify_eq. cbn [out_file reverse_mapping].
  by rewrite Hart, (assoc_L (∪)), (idemp_L (∪)).
Qed.

(** ** Encoding *)

Lemma get_encoded_text_loop_missing self (text : list Z) encoded_text c :
  c ∈ text → codes self !! c = None →
  ∃ before c' after,
    text = before ++ c' :: after ∧
    Forall (λ x, is_Some (codes self !! x)) before ∧
    codes self !! c' = None ∧
    get_encoded_text_loop self text encoded_text
    = Raise (KeyError (pretty c')).
Proof.
  revert encoded_text. induction text as [|c0 text IH];
    intros encoded_text Hin Hc; [set_solver|].
  cbn [get_encoded_text_loop].
  destruct (codes self !! c0) as [code|] eqn:Hc0.
  - destruct (IH (encoded_text +:+ code))
      as (before & c' & after & -> & Hbefore & Hn & ->); [set_solver|done|].
    exists (c0 :: before), c', after. split; [done|].
    split; [|done]. constructor; [by rewrite Hc0|done].
  - by exists [], c0, text.
Qed.

(** [get_encoded_text] raises [KeyError] when a byte of the text has no
    code; the key of the error is the first such byte: every byte before
    it in the text has a code. *)
Theorem get_encoded_text_missing_code self (text : list Z) (c : Z) :
  c ∈ text → codes self !! c = None →
  ∃ before c' after,
    text = before ++ c' :: after ∧
    Forall (λ x, is_Some (codes self !! x)) before ∧
    codes self !! c' = None ∧
    get_encoded_text self text = Raise (KeyError (pretty c')).
Proof. apply get_encoded_text_loop_missing. Qed.

Lemma get_encoded_text_missing_code_witness :
  10%Z ∈ [7; 9; 10]%Z ∧
  codes (out_self (compress new_compressor [7; 8]%Z)) !! 10%Z = None ∧
  ∃ before c' after,
    [7; 9; 10]%Z = before ++ c' :: after ∧
    Forall (λ x, is_Some (codes (out_self (compress new_compressor [7; 8]%Z))
                            !! x)) before ∧
    codes (out_self (compress new_compressor [7; 8]%Z)) !! c' = None ∧
    get_encoded_text (out_self (compress new_compressor [7; 8]%Z))
      [7; 9; 10]%Z
    = Raise (KeyError (pretty c')).
Proof.
  assert (10%Z ∈ [7; 9; 10]%Z) as Hin
    by (refine (bool_decide_unpack (10%Z ∈ [7; 9; 10]%Z) _); by vm_compute).
  assert (codes (out_self (compress new_compressor [7; 8]%Z)) !! 10%Z = None)
    as Hc by (by vm_compute).
  split; [exact Hin|]. split; [exact Hc|].
  exact (get_encoded_text_missing_code _ [7; 9; 10]%Z 10 Hin Hc).
Defined.

(** On the compressor that has compressed [7 8], the text [7 9 10] fails
    on 9, the first of its two bytes without a code. *)
Example get_encoded_text_first_missing :
  get_encoded_text (out_self (compress new_compressor [7; 8]%Z)) [7; 9; 10]%Z
  = Raise (KeyError "9").
Proof. by vm_compute. Qed.

(** The encoding of a concatenation is the concatenation of the
    encodings, and fails where the first of them fails. *)
Theorem get_encoded_text_app self (text1 text2 : list Z) :
  get_encoded_text self (text1 ++ text2)
  = (e1 ← get_encoded_text self text1;
     e2 ← get_encoded_text self text2;
     Ok (e1 +:+ e2)).
Proof.
  unfold get_encoded_text. generalize EmptyString at 1 3.
  induction text1 as [|c text1 IH]; intros acc.
  - simpl. apply get_encoded_text_loop_acc.
  - simpl. destruct (codes self !! c); [|done]. apply IH.
Qed.

(** ** Padding and packing *)


(** [get_byte_array] packs a string of [8 * m] binary digits into [m]
    bytes of [0, 256), and the bits of these bytes are the string. *)
Theorem get_byte_array_round_trip (s : string) (m : nat) :
  is_bits s → String.length s = 8 * m →
  ∃ b, get_byte_array s = Ok b ∧ length b = m ∧
       Forall (λ v, 0 ≤ v < 256)%Z b ∧ payload_bits b = s.
Proof. apply get_byte_array_full. Qed.

Lemma get_byte_array_round_trip_witness :
  is_bits "0000011100011111" ∧ String.length "0000011100011111" = 8 * 2 ∧
  ∃ b, get_byte_array "0000011100011111" = Ok b ∧ length b = 2 ∧
       Forall (λ v, 0 ≤ v < 256)%Z b ∧ payload_bits b = "0000011100011111".
Proof.
  assert (is_bits "0000011100011111") as Hbits by (vm_compute; tauto).
  assert (String.length "0000011100011111" = 8 * 2) as Hlen by reflexivity.
  split; [exact Hbits|]. split; [exact Hlen|].
  exact (get_byte_array_round_trip "0000011100011111" 2 Hbits Hlen).
Defined.

(** On a string of binary digits, [get_byte_array] exits exactly when the
    length is not a multiple of eight; when it is one, it returns one byte
    of [0, 256) for every eight digits. *)
Theorem get_byte_array_exits_iff (s : string) :
  is_bits s →
  (get_byte_array s = Raise SystemExit ↔ String.length s `mod` 8 ≠ 0) ∧
  (String.length s `mod` 8 = 0 →
   ∃ b, get_byte_array s = Ok b ∧ length b = String.length s / 8 ∧
        Forall (λ v, 0 ≤ v < 256)%Z b).
Proof.
  intros Hbits.
  assert (String.length s `mod` 8 = 0 →
          ∃ b, get_byte_array s = Ok b ∧ length b = String.length s / 8 ∧
               Forall (λ v, 0 ≤ v < 256)%Z b) as Haligned.
  { intros Hmod.
    destruct (get_byte_array_full s (String.length s / 8) Hbits)
      as (b & Hb & Hlen & Hbytes & _).
    { pose proof (Nat.div_mod_eq (String.length s) 8). lia. }
    by exists b. }
  split; [|done]. split.
  - intros Hexit Hmod. destruct (Haligned Hmod) as (b & Hb & _). congruence.
  - intros Hmod. unfold get_byte_array. by rewrite decide_True.
Qed.

Lemma get_byte_array_exits_iff_witness :
  is_bits "0000011100011111" ∧
  (get_byte_array "0000011100011111" = Raise SystemExit
   ↔ String.length "0000011100011111" `mod` 8 ≠ 0) ∧
  ∃ b, get_byte_array "0000011100011111" = Ok b ∧
       length b = String.length "0000011100011111" / 8 ∧
       Forall (λ v, 0 ≤ v < 256)%Z b.
Proof.
  assert (is_bits "0000011100011111") as Hbits by (vm_compute; tauto).
  split; [exact Hbits|]. split.
  - exact (proj1 (get_byte_array_exits_iff "0000011100011111" Hbits)).
  - exact (proj2 (get_byte_array_exits_iff "0000011100011111" Hbits)
             eq_refl).
Defined.

(** The string ['101'] is not a whole number of bytes: [get_byte_array]
    exits. *)
Example get_byte_array_unpadded_exits :
  get_byte_array "101" = Raise SystemExit.
Proof. reflexivity. Qed.

(** Packing the bits of a list of bytes gives the bytes back. *)
Theorem get_byte_array_payload_bits (compressed_data : list Z) :
  Forall (λ v, 0 ≤ v < 256)%Z compressed_data →
  get_byte_array (payload_bits compressed_data) = Ok compressed_data.
Proof.
  intros Hbytes.
  destruct (payload_bits_length compressed_data Hbytes) as [_ Hlen].
  unfold get_byte_array. rewrite Hlen, decide_False; last first.
  { intros Hne. apply Hne. rewrite Nat.mul_comm. apply Nat.Div0.mod_mul. }
  rewrite range_step_8.
  rewrite <- (str_app_nil_l (payload_bits compressed_data)) at 1.
  by rewrite (get_byte_array_loop_payload EmptyString compressed_data 0 []).
Qed.

Lemma get_byte_array_payload_bits_witness :
  Forall (λ v, 0 ≤ v < 256)%Z [7; 31; 0]%Z ∧
  get_byte_array (payload_bits [7; 31; 0]%Z) = Ok [7; 31; 0]%Z.
Proof.
  assert (Forall (λ v, 0 ≤ v < 256)%Z [7; 31; 0]%Z) as Hbytes
    by (repeat constructor; lia).
  split; [exact Hbytes|]. exact (get_byte_array_payload_bits _ Hbytes).
Defined.

(** ** Unpadding and decoding *)

(** For a header that reads a positive count [p], [remove_padding] returns
    the text after the header without its last [p] characters (nothing when
    it has fewer). *)
Theorem remove_padding_drops_count hdr rest (p : Z) :
  String.length hdr = 8 → int2 hdr = Ok p → (0 < p)%Z →
  remove_padding (hdr +:+ rest)
  = Ok (substring 0 (String.length rest - Z.to_nat p) rest).
Proof. apply remove_padding_positive. Qed.

Lemma remove_padding_drops_count_witness :
  String.length "00000011" = 8 ∧ int2 "00000011" = Ok 3%Z ∧ (0 < 3)%Z ∧
  remove_padding "0000001110101000" = Ok "10101".
Proof.
  assert (String.length "00000011" = 8) as Hlen by reflexivity.
  assert (int2 "00000011" = Ok 3%Z) as Hint by reflexivity.
  assert (0 < 3)%Z as Hp by lia.
  split; [exact Hlen|]. split; [exact Hint|]. split; [exact Hp|].
  exact (remove_padding_drops_count "00000011" "10101000" 3 Hlen Hint Hp).
Defined.

(** The only exception [decode_text] raises is the [ValueError] of
    [bytearray.append], and only when the reverse mapping has a value
    outside of [0, 256). *)
Theorem decode_text_only_error self encoded_text e :
  decode_text self encoded_text = Raise e →
  e = ValueError "byte must be in range(0, 256)" ∧
  ∃ code char, reverse_mapping self !! code = Some char ∧
               ¬ (0 ≤ char < 256)%Z.
Proof.
  unfold decode_text.
  destruct (decode_text_loop self encoded_text EmptyString [])
    as [[residual decoded_bytes]|e'] eqn:Hloop; [done|].
  intros [= <-]. by eapply decode_text_loop_error.
Qed.

Lemma decode_text_only_error_witness :
  decode_text {| codes := ∅; reverse_mapping := {[ "1" := 300%Z ]} |} "1"
  = Raise (ValueError "byte must be in range(0, 256)") ∧
  ValueError "byte must be in range(0, 256)"
  = ValueError "byte must be in range(0, 256)" ∧
  ∃ code char,
    reverse_mapping {| codes := ∅; reverse_mapping := {[ "1" := 300%Z ]} |}
      !! code = Some char ∧
    ¬ (0 ≤ char < 256)%Z.
Proof.
  assert (decode_text
            {| codes := ∅; reverse_mapping := {[ "1" := 300%Z ]} |} "1"
          = Raise (ValueError "byte must be in range(0, 256)")) as Hraise
    by (by vm_compute).
  split; [exact Hraise|].
  exact (decode_text_only_error _ _ _ Hraise).
Defined.

(** [decode_text] writes at most one byte for every bit it reads, and every
    byte it writes is a value of the reverse mapping. *)
Theorem decode_text_output_bound self encoded_text decoded_bytes :
  decode_text self encoded_text = Ok decoded_bytes →
  length decoded_bytes ≤ String.length encoded_text ∧
  Forall (λ b, (0 ≤ b < 256)%Z ∧
               ∃ code, reverse_mapping self !! code = Some b) decoded_bytes.
Proof.
  unfold decode_text.
  destruct (decode_text_loop self encoded_text EmptyString [])
    as [[residual out]|e'] eqn:Hloop; [|done].
  intros [= <-].
  by destruct (decode_text_loop_output _ _ _ _ _ _ Hloop)
    as (new & -> & Hlen & Hall).
Qed.

Lemma decode_text_output_bound_witness :
  decode_text {| codes := ∅; reverse_mapping := aaabbc_mapping |} "00011"
  = Ok [97; 97; 97; 98]%Z ∧
  length [97; 97; 97; 98]%Z ≤ String.length "00011" ∧
  Forall (λ b, (0 ≤ b < 256)%Z ∧
               ∃ code,
                 reverse_mapping
                   {| codes := ∅; reverse_mapping := aaabbc_mapping |}
                   !! code = Some b) [97; 97; 97; 98]%Z.
Proof.
  assert (decode_text {| codes := ∅; reverse_mapping := aaabbc_mapping |}
            "00011" = Ok [97; 97; 97; 98]%Z) as Hdec by (by vm_compute).
  split; [exact Hdec|].
  exact (decode_text_output_bound _ _ _ Hdec).
Defined.

(** ** [decompress] *)

Lemma round_trip_two_symbols_witness :
  Forall (λ c, 0 ≤ c < 256)%Z aaabbc ∧
  97%Z ∈ aaabbc ∧ 98%Z ∈ aaabbc ∧ 97%Z ≠ 98%Z ∧
  ∃ self art,
    compress new_compressor aaabbc
    = mkOutcome self (Some art) (Ok (true, "Compression successful")) ∧
    decompress new_compressor art
    = mkOutcome
        {| codes := codes new_compressor;
           reverse_mapping := art_reverse_mapping art |}
        (Some aaabbc) (Ok (true, "Decompression successful")).
Proof.
  assert (Forall (λ c, 0 ≤ c < 256)%Z aaabbc) as Hbytes
    by (repeat constructor; lia).
  assert (97%Z ∈ aaabbc) as H1
    by (refine (bool_decide_unpack (97%Z ∈ aaabbc) _); by vm_compute).
  assert (98%Z ∈ aaabbc) as H2
    by (refine (bool_decide_unpack (98%Z ∈ aaabbc) _); by vm_compute).
  assert (97%Z ≠ 98%Z) as Hs by lia.
  split_and!; [exact Hbytes|exact H1|exact H2|exact Hs|].
  exact (round_trip_two_symbols new_compressor aaabbc 97 98 Hbytes H1 H2 Hs).
Defined.

(** [decompress] of an artifact with an empty payload fails on the header
    it cannot read: it returns [False] with the message of the
    [ValueError] of [int('', 2)] and writes nothing. *)
Theorem decompress_empty_payload self reverse :
  decompress self
    {| art_reverse_mapping := reverse; art_compressed_data := [] |}
  = mkOutcome {| codes := codes self; reverse_mapping := reverse |} None
      (Ok (false,
           "Decompression failed: invalid literal for int() with base 2: ''")).
Proof. reflexivity. Qed.

(** [decompress] checks nothing: for every artifact with a payload of one
    byte or more and a reverse mapping whose values are bytes, it returns
    [(True, "Decompression successful")] and writes an output. *)
Theorem decompress_accepts_byte_payload self art :
  art_compressed_data art ≠ [] →
  Forall (λ v, 0 ≤ v < 256)%Z (art_compressed_data art) →
  byte_values (art_reverse_mapping art) →
  ∃ decoded_bytes,
    decompress self art
    = mkOutcome
        {| codes := codes self; reverse_mapping := art_reverse_mapping art |}
        (Some decoded_bytes) (Ok (true, "Decompression successful")).
Proof.
  destruct art as [reverse data]. cbn [art_compressed_data art_reverse_mapping].
  intros Hne Hbytes Hvalues. destruct data as [|p rest]; [done|].
  apply Forall_cons in Hbytes as [Hp _].
  destruct (byte_bits_spec p Hp) as (_ & Hlen & Hint).
  destruct (decompress_header self reverse p rest Hlen Hint Hvalues)
    as (decoded_bytes & _ & Hd).
  by exists decoded_bytes.
Qed.

Lemma byte_values_aaabbc : byte_values aaabbc_mapping.
Proof.
  intros code char Hlookup. unfold aaabbc_mapping in Hlookup.
  repeat (rewrite lookup_insert in Hlookup; case_decide; simplify_eq; [lia|]).
  rewrite lookup_insert in Hlookup. case_decide; simplify_eq. lia.
Qed.

Lemma decompress_accepts_byte_payload_witness :
  [200; 13]%Z ≠ [] ∧ Forall (λ v, 0 ≤ v < 256)%Z [200; 13]%Z ∧
  byte_values aaabbc_mapping ∧
  ∃ decoded_bytes,
    decompress new_compressor
      {| art_reverse_mapping := aaabbc_mapping;
         art_compressed_data := [200; 13]%Z |}
    = mkOutcome
        {| codes := codes new_compressor; reverse_mapping := aaabbc_mapping |}
        (Some decoded_bytes) (Ok (true, "Decompression successful")).
Proof.
  assert ([200; 13]%Z ≠ []) as Hne by done.
  assert (Forall (λ v, 0 ≤ v < 256)%Z [200; 13]%Z) as Hbytes
    by (repeat constructor; lia).
  split; [exact Hne|]. split; [exact Hbytes|].
  split; [exact byte_values_aaabbc|].
  exact (decompress_accepts_byte_payload new_compressor
           {| art_reverse_mapping := aaabbc_mapping;
              art_compressed_data := [200; 13]%Z |}
           Hne Hbytes byte_values_aaabbc).
Defined.

(** ** The file names of the application *)

(** The name proposed for the compressed file of [p] is [p.huff], and the
    name proposed for decompressing that file is [p] again. *)
Theorem browse_file_names_round_trip (self : CompressionApp) (p : string) :
  p ≠ EmptyString → compression_var self = "compress" →
  output_path (browse_file self p) = p +:+ ".huff" ∧
  output_path
    (browse_file (select_operation (browse_file self p) "decompress")
       (output_path (browse_file self p)))
  = p.
Proof.
  intros Hp Hmode.
  assert (output_path (browse_file self p) = p +:+ ".huff") as Hout.
  { unfold browse_file, auto_generate_output.
    rewrite decide_True by done. cbn [file_path compression_var output_path].
    rewrite decide_False by done. cbn [output_path].
    by rewrite Hmode, decide_True. }
  split; [done|]. rewrite Hout.
  unfold browse_file at 1.
  rewrite decide_True by (by destruct p).
  unfold auto_generate_output, select_operation.
  cbn [file_path compression_var output_path].
  rewrite decide_False by (by destruct p).
  rewrite decide_False by done. rewrite endswith_app. cbn [output_path].
  by apply (slice_drop_last_app p ".huff").
Qed.

Lemma browse_file_names_round_trip_witness :
  "a.txt" ≠ EmptyString ∧
  compression_var
    {| compressor := new_compressor; file_path := EmptyString;
       compression_var := "compress"; output_path := EmptyString |}
  = "compress" ∧
  output_path
    (browse_file
       {| compressor := new_compressor; file_path := EmptyString;
          compression_var := "compress"; output_path := EmptyString |}
       "a.txt")
  = "a.txt" +:+ ".huff" ∧
  output_path
    (browse_file
       (select_operation
          (browse_file
             {| compressor := new_compressor; file_path := EmptyString;
                compression_var := "compress"; output_path := EmptyString |}
             "a.txt")
          "decompress")
       (output_path
          (browse_file
             {| compressor := new_compressor; file_path := EmptyString;
                compression_var := "compress"; output_path := EmptyString |}
             "a.txt")))
  = "a.txt".
Proof.
  assert ("a.txt" ≠ EmptyString) as Hp by discriminate.
  split; [exact Hp|]. split; [reflexivity|].
  exact (browse_file_names_round_trip
           {| compressor := new_compressor; file_path := EmptyString;
              compression_var := "compress"; output_path := EmptyString |}
           "a.txt" Hp eq_refl).
Defined.

Lemma slice_drop_last_neg s (n : positive) :
  slice s None (Some (Zneg n))
  = substring 0 (String.length s - Pos.to_nat n) s.
Proof. apply (slice_drop_last s (Zpos n)). lia. Qed.

Lemma endswith_length s suffix :
  endswith s suffix = true → String.length suffix ≤ String.length s.
Proof.
  unfold endswith. intros [Hle _]%andb_true_iff. by apply Nat.leb_le.
Qed.

(** [auto_generate_output] never proposes the input file itself as the
    output file. *)
Theorem auto_generate_output_not_input (self : CompressionApp) :
  file_path self ≠ EmptyString →
  output_path (auto_generate_output self) ≠ file_path self.
Proof.
  intros Hin Heq. apply (f_equal String.length) in Heq. revert Heq.
  unfold auto_generate_output. rewrite decide_False by done.
  cbn [output_path].
  assert (0 < String.length (file_path self)) as Hpos
    by (destruct (file_path self); simpl; [done|lia]).
  case_decide.
  - rewrite str_length_app. simpl. lia.
  - destruct (endswith (file_path self) ".huff") eqn:Hends.
    + apply endswith_length in Hends. simpl in Hends.
      rewrite (slice_drop_last_neg _ 5), substring_length by lia. lia.
    + rewrite str_length_app. simpl. lia.
Qed.

Lemma auto_generate_output_not_input_witness :
  file_path
    {| compressor := new_compressor; file_path := "a.huff";
       compression_var := "decompress"; output_path := EmptyString |}
  ≠ EmptyString ∧
  output_path
    (auto_generate_output
       {| compressor := new_compressor; file_path := "a.huff";
          compression_var := "decompress"; output_path := EmptyString |})
  ≠ file_path
      {| compressor := new_compressor; file_path := "a.huff";
         compression_var := "decompress"; output_path := EmptyString |}.
Proof.
  assert (file_path
            {| compressor := new_compressor; file_path := "a.huff";
               compression_var := "decompress"; output_path := EmptyString |}
          ≠ EmptyString) as Hin by discriminate.
  split; [exact Hin|]. exact (auto_generate_output_not_input _ Hin).
Defined.

(** ** The round trip on a used compressor *)

Section decode_used.
Variable self : HuffmanCompressor.
Variable table : list (Z * string).

Hypothesis table_reverse :
  ∀ c w, (c, w) ∈ table → reverse_mapping self !! w = Some c.
Hypothesis table_no_shorter_key :
  ∀ c key u, (c, key +:+ u) ∈ table → key ≠ EmptyString → u ≠ EmptyString →
             reverse_mapping self !! key = None.
Hypothesis table_codes :
  ∀ c w, (c, w) ∈ table → codes self !! c = Some w.
Hypothesis table_codes_nonempty :
  ∀ c w, (c, w) ∈ table → w ≠ EmptyString.
Hypothesis table_symbols_bytes :
  ∀ c w, (c, w) ∈ table → (0 ≤ c < 256)%Z.

Lemma decode_code_suffix_used c w2 w1 rest decoded_bytes :
  (c, w1 +:+ w2) ∈ table → w2 ≠ EmptyString →
  decode_text_loop self (w2 +:+ rest) w1 decoded_bytes
  = decode_text_loop self rest EmptyString (decoded_bytes ++ [c]).
Proof.
  revert w1. induction w2 as [|bit w2 IH]; intros w1 Hin Hne; [done|].
  rewrite str_app_cons. cbn [decode_text_loop].
  assert ((w1 +:+ String bit EmptyString) +:+ w2 = w1 +:+ String bit w2)
    as Hsplit by (by rewrite str_app_assoc).
  destruct w2 as [|bit' w2].
  - rewrite (table_reverse c _ Hin).
    unfold bytearray_append.
    rewrite decide_True by (by eapply table_symbols_bytes). done.
  - rewrite (table_no_shorter_key c (w1 +:+ String bit EmptyString)
               (String bit' w2)).
    + apply IH; [by rewrite Hsplit|done].
    + by rewrite Hsplit.
    + by destruct w1.
    + done.
Qed.

Lemma decode_encoded_used (text : list Z) encoded_text decoded_bytes r :
  (∀ c, c ∈ text → ∃ w, (c, w) ∈ table) →
  decode_text_loop self encoded_text EmptyString []
    = Ok (EmptyString, decoded_bytes) →
  get_encoded_text_loop self text encoded_text = Ok r →
  decode_text_loop self r EmptyString []
  = Ok (EmptyString, decoded_bytes ++ text).
Proof.
  revert encoded_text decoded_bytes.
  induction text as [|c text IH]; intros encoded_text decoded_bytes Hin Hdec.
  - simpl. intros [= <-]. by rewrite app_nil_r.
  - destruct (Hin c) as [w Hw]; [set_solver|].
    simpl. rewrite (table_codes c w Hw). intros Hr.
    rewrite (IH (encoded_text +:+ w) (decoded_bytes ++ [c]));
      [by rewrite <- (assoc_L (++))|set_solver| |done].
    rewrite (decode_text_loop_app _ _ _ _ _ _ _ Hdec).
    rewrite <- (str_app_nil_r w) at 1.
    rewrite (decode_code_suffix_used c w EmptyString EmptyString);
      [done|done|by eapply table_codes_nonempty].
Qed.

End decode_used.

(** The round trip of a buffer of bytes with two distinct values or more
    holds on a used compressor too, as long as no key the compressor still
    holds is a proper prefix of a code of the new input. *)
Theorem round_trip_used_compressor self self' (text : list Z) (s1 s2 : Z) :
  Forall (λ c, 0 ≤ c < 256)%Z text → s1 ∈ text → s2 ∈ text → s1 ≠ s2 →
  no_stale_prefix self text →
  ∃ art,
    out_file (compress self text) = Some art ∧
    decompress self' art
    = mkOutcome
        {| codes := codes self'; reverse_mapping := art_reverse_mapping art |}
        (Some text) (Ok (true, "Decompression successful")).
Proof.
  intros Hbytes H1 H2 Hs Hstale.
  assert (text ≠ []) as Hne by (intros ->; set_solver).
  destruct (compress_spec new_compressor text Hne)
    as (heap & root & enc & b & _ & _ & Hnd & Hin & Henc & Hbits & Hb & Hc).
  destruct (compress_used self text Hne) as (self0 & art0 & H0 & Hart & Hu).
  rewrite Hc in H0. simplify_eq. unfold no_stale_prefix in Hstale.
  rewrite Hc in Hstale. cbn [out_self] in Hstale.
  cbn [art_reverse_mapping art_compressed_data] in Hu.
  set (self0 := build_codes_node root EmptyString new_compressor) in *.
  set (used := {| codes := codes self0 ∪ codes self;
                  reverse_mapping :=
                    reverse_mapping self0 ∪ reverse_mapping self |}) in *.
  rewrite Hu. cbn [out_file]. eexists. split; [done|].
  assert (∀ c w, (c, w) ∈ paths root → w ≠ EmptyString) as Hnonempty.
  { destruct root as [c f|f l r].
    - exfalso. apply Hs. apply Hin in H1, H2. simpl in H1, H2. set_solver.
    - intros c w [(w' & -> & _)|(w' & -> & _)]%elem_of_paths_internal; done. }
  assert (decode_text_loop used enc EmptyString [] = Ok (EmptyString, text))
    as Hdecode.
  { apply (decode_encoded_used used (paths root)) with
      (encoded_text := EmptyString) (decoded_bytes := []).
    - intros c w Hw. cbn [used reverse_mapping].
      apply lookup_union_Some_l. by apply reverse_new_compressor.
    - intros c key u Hw Hkey Hu'. cbn [used reverse_mapping].
      apply lookup_union_None. split.
      + destruct (reverse_mapping self0 !! key) as [c'|] eqn:Hk; [|done].
        exfalso. apply reverse_new_compressor in Hk.
        destruct (decide (c' = c)) as [->|Hcc].
        * apply (codes_new_compressor root) in Hk, Hw; [|done..].
          rewrite Hk in Hw. injection Hw as Heq.
          rewrite <- (str_app_nil_r key) in Heq at 1.
          apply str_app_inv_head in Heq. by subst.
        * eapply paths_prefix_free; [exact Hk|exact Hw|exact Hcc|].
          by exists u.
      + destruct (reverse_mapping self !! key) as [c'|] eqn:Hk; [|done].
        exfalso. apply Hu'. eapply (Hstale key c u); [by eexists| |done].
        by apply codes_new_compressor.
    - intros c w Hw. cbn [used codes].
      apply lookup_union_Some_l. by apply codes_new_compressor.
    - exact Hnonempty.
    - intros c w Hw%elem_of_paths_leaves%Hin.
      rewrite Forall_forall in Hbytes. by apply Hbytes.
    - intros c Hc'%Hin. by apply elem_of_leaves_paths.
    - done.
    - unfold get_encoded_text in Henc. rewrite <- Henc.
      apply get_encoded_text_loop_ext. intros c Hc'%Hin.
      destruct (elem_of_leaves_paths _ _ Hc') as [w Hw].
      pose proof (proj2 (codes_new_compressor root c w Hnd) Hw) as Hcw.
      fold self0 in Hcw. cbn [used codes].
      by rewrite Hcw, (lookup_union_Some_l _ _ _ w). }
  destruct (pad_encoded_text_bits enc Hbits) as [Hpbits Hplen].
  unfold decompress. cbn [art_reverse_mapping art_compressed_data].
  rewrite (payload_bits_get_byte_array _ _ _ Hpbits Hplen Hb).
  rewrite remove_padding_pad. unfold decode_text.
  rewrite (decode_text_loop_ext _ used) by done.
  by rewrite Hdecode.
Qed.

Lemma no_stale_prefix_45_after_123 :
  no_stale_prefix (out_self (compress new_compressor [1; 2; 3]%Z)) [4; 5]%Z.
Proof.
  intros key c u _ Hcode Hkey.
  assert (codes (out_self (compress new_compressor [4; 5]%Z))
          = <[4%Z:="0"]> (<[5%Z:="1"]> ∅)) as Hcodes by (by vm_compute).
  rewrite Hcodes in Hcode.
  assert (String.length (key +:+ u) = 1) as Hlen.
  { repeat (rewrite lookup_insert in Hcode; case_decide;
            [by injection Hcode as <-|]).
    by rewrite lookup_empty in Hcode. }
  rewrite str_length_app in Hlen.
  destruct key; [done|]. destruct u; [done|]. simpl in Hlen. lia.
Qed.

Lemma round_trip_used_compressor_witness :
  Forall (λ c, 0 ≤ c < 256)%Z [4; 5]%Z ∧
  4%Z ∈ [4; 5]%Z ∧ 5%Z ∈ [4; 5]%Z ∧ 4%Z ≠ 5%Z ∧
  no_stale_prefix (out_self (compress new_compressor [1; 2; 3]%Z)) [4; 5]%Z ∧
  ∃ art,
    out_file (compress (out_self (compress new_compressor [1; 2; 3]%Z))
                [4; 5]%Z) = Some art ∧
    decompress new_compressor art
    = mkOutcome
        {| codes := codes new_compressor;
           reverse_mapping := art_reverse_mapping art |}
        (Some [4; 5]%Z) (Ok (true, "Decompression successful")).
Proof.
  assert (Forall (λ c, 0 ≤ c < 256)%Z [4; 5]%Z) as Hbytes
    by (repeat constructor; lia).
  assert (4%Z ∈ [4; 5]%Z) as H1
    by (refine (bool_decide_unpack (4%Z ∈ [4; 5]%Z) _); by vm_compute).
  assert (5%Z ∈ [4; 5]%Z) as H2
    by (refine (bool_decide_unpack (5%Z ∈ [4; 5]%Z) _); by vm_compute).
  assert (4%Z ≠ 5%Z) as Hs by lia.
  split_and!; [exact Hbytes|exact H1|exact H2|exact Hs
              |exact no_stale_prefix_45_after_123|].
  exact (round_trip_used_compressor _ new_compressor [4; 5]%Z 4 5
           Hbytes H1 H2 Hs no_stale_prefix_45_after_123).
Defined.
